(** * unisync: block-checksum delta encoding ([src/algo.ts])

    A shallow embedding of the four exported operations of [algo.ts]
    ([divideToChunks], [findDifferingChunks], [generateInstructions],
    [rebuildTargetFromOriginal]) together with the runtime pieces they
    call ([Buffer.subarray], [Buffer.concat], [Map], Adler-32, SHA-1),
    followed by the properties of the delta encoder.

    Conventions.
    - A [Buffer] is a list of bytes; JavaScript numbers that the code uses
      as sizes, positions and indices are integers in [Z].
    - Every [while]/[for] loop of the source is a [Fixpoint] on a fuel
      argument; [None] means that the fuel ran out before the loop exited.
      A loop that exits does so for every larger fuel, and a loop that
      returns [None] for every fuel is one that never exits.
    - A JavaScript exception is the [Thrown] outcome. *)

From Stdlib Require Import ZArith List Lia Strings.String Strings.Ascii Strings.Byte.
From stdpp Require Import gmap strings list finite.

Local Open Scope Z_scope.

(** ** Buffers *)

Abbreviation Buffer := (list byte).

Definition blen (b : Buffer) : Z := Z.of_nat (length b).

(** [adjustOffset] of Node's [lib/buffer.js], on integer offsets: a negative
    offset counts from the end, and the result is clamped to [0, length]. *)
Definition adjustOffset (offset len : Z) : Z :=
  if offset =? 0 then 0
  else if offset <? 0 then
    (if 0 <? offset + len then offset + len else 0)
  else if offset <? len then offset
  else len.

(** [buf.subarray(start, end)]. *)
Definition subarray (buf : Buffer) (start end_ : Z) : Buffer :=
  let srcLength := blen buf in
  let s := adjustOffset start srcLength in
  let e := adjustOffset end_ srcLength in
  let newLength := if s <? e then e - s else 0 in
  take (Z.to_nat newLength) (drop (Z.to_nat s) buf).

(** [arr[i]] on a JavaScript array: [None] stands for [undefined]. *)
Definition array_get {A} (arr : list A) (i : Z) : option A :=
  if i <? 0 then None else arr !! Z.to_nat i.

(** Outcome of a call that may throw. *)
Inductive outcome (A : Type) : Type :=
| Returned (a : A)
| Thrown.
Arguments Returned {A} a.
Arguments Thrown {A}.

(** [Buffer.concat(list)]: a [TypeError] is thrown as soon as an element of
    the list is not a buffer ([undefined] here). *)
Fixpoint Buffer_concat (l : list (option Buffer)) : outcome Buffer :=
  match l with
  | [] => Returned []
  | None :: _ => Thrown
  | Some b :: rest =>
      match Buffer_concat rest with
      | Returned r => Returned (b ++ r)
      | Thrown => Thrown
      end
  end.

(** ** Checksums *)

Definition byte_val (b : byte) : Z := Z.of_N (Byte.to_N b).

(** The [ToInt32] conversion done by JavaScript's bit operators. *)
Definition to_int32 (z : Z) : Z := (z + 2 ^ 31) mod 2 ^ 32 - 2 ^ 31.

(** [adler32.buf] of the adler-32 package: the two running sums of
    Adler-32 modulo 65521, packed as [(b << 16) | a], a signed 32-bit
    number. *)
Definition adler_step (st : Z * Z) (x : byte) : Z * Z :=
  let a := (fst st + byte_val x) mod 65521 in
  let b := (snd st + a) mod 65521 in
  (a, b).

Definition adler32_buf (buf : Buffer) : Z :=
  let '(a, b) := fold_left adler_step buf (1, 0) in
  to_int32 (Z.lor (Z.shiftl b 16) a).

(** SHA-1 (FIPS 180-4) on 32-bit words held in [Z]. *)
Module SHA1.

Definition w32 (x : Z) : Z := x mod 2 ^ 32.

Definition rotl (n x : Z) : Z :=
  w32 (Z.lor (Z.shiftl x n) (Z.shiftr x (32 - n))).

Definition lnot32 (x : Z) : Z := Z.lxor x 4294967295.

(** Message padding: one [0x80] byte, zero bytes up to 56 modulo 64, and
    the bit length on eight big-endian bytes. *)
Definition be_bytes (n : nat) (x : Z) : list Z :=
  map (fun i => Z.shiftr x (8 * Z.of_nat i) mod 256) (rev (seq 0 n)).

Definition pad (msg : list Z) : list Z :=
  let l := Z.of_nat (length msg) in
  msg ++ [128] ++ repeat 0 (Z.to_nat ((55 - l) mod 64)) ++ be_bytes 8 (8 * l).

Fixpoint be_words (n : nat) (bs : list Z) : list Z :=
  match n, bs with
  | S n', b0 :: b1 :: b2 :: b3 :: rest =>
      (Z.shiftl b0 24 + Z.shiftl b1 16 + Z.shiftl b2 8 + b3) :: be_words n' rest
  | _, _ => []
  end.

(** Message schedule, most recent word first. *)
Fixpoint schedule (n : nat) (w : list Z) : list Z :=
  match n with
  | O => w
  | S n' =>
      let x := Z.lxor (Z.lxor (nth 2 w 0) (nth 7 w 0))
                      (Z.lxor (nth 13 w 0) (nth 15 w 0)) in
      schedule n' (rotl 1 x :: w)
  end.

Definition hstate : Type := Z * Z * Z * Z * Z.

Definition round (st : hstate) (iw : nat * Z) : hstate :=
  let '(a, b, c, d, e) := st in
  let '(i, w) := iw in
  let '(f, k) :=
    if (i <? 20)%nat then
      (Z.lor (Z.land b c) (Z.land (lnot32 b) d), 1518500249)
    else if (i <? 40)%nat then
      (Z.lxor (Z.lxor b c) d, 1859775393)
    else if (i <? 60)%nat then
      (Z.lor (Z.lor (Z.land b c) (Z.land b d)) (Z.land c d), 2400959708)
    else
      (Z.lxor (Z.lxor b c) d, 3395469782) in
  (w32 (rotl 5 a + f + e + k + w), a, rotl 30 b, c, d).

Definition block (h : hstate) (bs : list Z) : hstate :=
  let ws := rev (schedule 64 (rev (be_words 16 bs))) in
  let '(a, b, c, d, e) := fold_left round (combine (seq 0 80) ws) h in
  let '(h0, h1, h2, h3, h4) := h in
  (w32 (h0 + a), w32 (h1 + b), w32 (h2 + c), w32 (h3 + d), w32 (h4 + e)).

Fixpoint blocks (n : nat) (h : hstate) (bs : list Z) : hstate :=
  match n with
  | O => h
  | S n' => blocks n' (block h (take 64 bs)) (drop 64 bs)
  end.

Definition init : hstate :=
  (1732584193, 4023233417, 2562383102, 271733878, 3285377520).

(** The 160-bit digest as a number. *)
Definition digest (msg : Buffer) : Z :=
  let p := pad (map byte_val msg) in
  let '(h0, h1, h2, h3, h4) := blocks (length p / 64) init p in
  Z.shiftl h0 128 + Z.shiftl h1 96 + Z.shiftl h2 64 + Z.shiftl h3 32 + h4.

Definition hex_digit (d : Z) : ascii :=
  match String.get (Z.to_nat d) "0123456789abcdef" with
  | Some c => c
  | None => "0"%char
  end.

(** [n] lowercase hexadecimal digits of [x], most significant first. *)
Fixpoint hex (n : nat) (x : Z) : string :=
  match n with
  | O => EmptyString
  | S n' => String (hex_digit (Z.shiftr x (4 * Z.of_nat n') mod 16)) (hex n' x)
  end.

(** [hash.digest("hex")]. *)
Definition hexdigest (msg : Buffer) : string := hex 40 (digest msg).

End SHA1.

(** [calculateWeakBlockChecksum] (Adler-32). *)
Definition calculateWeakBlockChecksum (buffer : Buffer) : Z :=
  adler32_buf buffer.

(** [calculateStrongBlockChecksum] (SHA-1, hexadecimal). *)
Definition calculateStrongBlockChecksum (buffer : Buffer) : string :=
  SHA1.hexdigest buffer.

Arguments calculateWeakBlockChecksum : simpl never.
Arguments calculateStrongBlockChecksum : simpl never.

(** ** Chunker *)

(** The [for] loop of [divideToChunks]; [i] is the loop variable and
    [chunks] the array built so far. *)
Fixpoint divideToChunks_loop (fuel : nat) (file : Buffer) (chunkSizeBytes i : Z)
    (chunks : list Buffer) : option (list Buffer) :=
  match fuel with
  | O => None
  | S fuel' =>
      if i <? blen file then
        divideToChunks_loop fuel' file chunkSizeBytes (i + chunkSizeBytes)
          (chunks ++ [subarray file i (i + chunkSizeBytes)])
      else Some chunks
  end.

Definition divideToChunks (fuel : nat) (file : Buffer) (chunkSizeBytes : Z)
    : option (list Buffer) :=
  divideToChunks_loop fuel file chunkSizeBytes 0 [].

(** ** Checksum index *)

Record ChecksumEntry : Type := { index : Z; strong : string }.

(** [originalChunks.forEach((chunk, index) => checksumMap.set(weak, {index, strong}))],
    started at array position [index] on the map [checksumMap]. *)
Fixpoint forEach_set (originalChunks : list Buffer) (index : Z)
    (checksumMap : gmap Z ChecksumEntry) : gmap Z ChecksumEntry :=
  match originalChunks with
  | [] => checksumMap
  | chunk :: rest =>
      let weak := calculateWeakBlockChecksum chunk in
      let strong := calculateStrongBlockChecksum chunk in
      forEach_set rest (index + 1)
        (<[weak := {| index := index; strong := strong |}]> checksumMap)
  end.

(** The test made on a window by both scanning loops:
    [checksumMap.has(weak)], then [checksumMap.get(weak)], then
    [originalChecksum.strong === strong].  [Some originalChecksum] is the
    branch that ends in [continue]; [None] falls through to the code after
    the two [if]s. *)
Definition probe (checksumMap : gmap Z ChecksumEntry) (windowBuffer : Buffer)
    : option ChecksumEntry :=
  let weak := calculateWeakBlockChecksum windowBuffer in
  let windowStrong := calculateStrongBlockChecksum windowBuffer in
  match checksumMap !! weak with
  | Some originalChecksum =>
      if String.eqb originalChecksum.(strong) windowStrong
      then Some originalChecksum else None
  | None => None
  end.

(** ** Matcher *)

(** The [while] loop of [findDifferingChunks]. *)
Fixpoint findDifferingChunks_loop (fuel : nat) (checksumMap : gmap Z ChecksumEntry)
    (targetData : Buffer) (chunkSizeBytes targetPosition : Z)
    (windowBuffer : Buffer) (differingChunks : list Buffer)
    : option (list Buffer) :=
  match fuel with
  | O => None
  | S fuel' =>
      if targetPosition <=? blen targetData - chunkSizeBytes then
        match probe checksumMap windowBuffer with
        | Some _ =>
            let targetPosition' := targetPosition + chunkSizeBytes in
            findDifferingChunks_loop fuel' checksumMap targetData chunkSizeBytes
              targetPosition'
              (subarray targetData targetPosition' (targetPosition' + chunkSizeBytes))
              differingChunks
        | None =>
            let targetPosition' := targetPosition + 1 in
            findDifferingChunks_loop fuel' checksumMap targetData chunkSizeBytes
              targetPosition'
              (subarray targetData targetPosition' (targetPosition' + chunkSizeBytes))
              (differingChunks ++ [subarray windowBuffer 0 chunkSizeBytes])
        end
      else Some differingChunks
  end.

Definition findDifferingChunks (fuel : nat) (originalData targetData : Buffer)
    (chunkSizeBytes : Z) : option (list Buffer) :=
  match divideToChunks fuel originalData chunkSizeBytes with
  | None => None
  | Some originalChunks =>
      let checksumMap := forEach_set originalChunks 0 ∅ in
      findDifferingChunks_loop fuel checksumMap targetData chunkSizeBytes 0
        (subarray targetData 0 (0 + chunkSizeBytes)) []
  end.

(** An instruction is a chunk index of the original or a run of bytes
    ([Buffer | number] in the source). *)
Inductive Instruction : Type :=
| CopyRef (index : Z)
| Literal (bytes : Buffer).

(** [if (differingBuffer.length > 0) instructions.push(Buffer.concat(differingBuffer))];
    the buffers of [differingBuffer] are all defined, so [Buffer.concat]
    is their concatenation. *)
Definition flush (differingBuffer : list Buffer) (instructions : list Instruction)
    : list Instruction :=
  if (0 <? length differingBuffer)%nat
  then instructions ++ [Literal (concat differingBuffer)]
  else instructions.

(** The [while] loop of [generateInstructions] and the flush after it. *)
Fixpoint generateInstructions_loop (fuel : nat) (checksumMap : gmap Z ChecksumEntry)
    (targetData : Buffer) (chunkSizeBytes targetPosition : Z)
    (differingBuffer : list Buffer) (instructions : list Instruction)
    : option (list Instruction) :=
  match fuel with
  | O => None
  | S fuel' =>
      if targetPosition <? blen targetData then
        match
          (if targetPosition <=? blen targetData - chunkSizeBytes
           then probe checksumMap
                  (subarray targetData targetPosition (targetPosition + chunkSizeBytes))
           else None)
        with
        | Some originalChecksum =>
            generateInstructions_loop fuel' checksumMap targetData chunkSizeBytes
              (targetPosition + chunkSizeBytes) []
              (flush differingBuffer instructions ++ [CopyRef originalChecksum.(index)])
        | None =>
            generateInstructions_loop fuel' checksumMap targetData chunkSizeBytes
              (targetPosition + 1)
              (differingBuffer ++ [subarray targetData targetPosition (targetPosition + 1)])
              instructions
        end
      else Some (flush differingBuffer instructions)
  end.

Definition generateInstructions (fuel : nat) (originalData targetData : Buffer)
    (chunkSizeBytes : Z) : option (list Instruction) :=
  match divideToChunks fuel originalData chunkSizeBytes with
  | None => None
  | Some originalChunks =>
      let checksumMap := forEach_set originalChunks 0 ∅ in
      generateInstructions_loop fuel checksumMap targetData chunkSizeBytes 0 [] []
  end.

(** ** Reconstructor *)

(** What one instruction pushes on [rebuiltChunks]: [originalChunks[instruction]]
    (possibly [undefined]) or the literal buffer. *)
Definition rebuilt_chunk (originalChunks : list Buffer) (instruction : Instruction)
    : option Buffer :=
  match instruction with
  | CopyRef i => array_get originalChunks i
  | Literal b => Some b
  end.

Definition rebuildTargetFromOriginal (fuel : nat) (originalData : Buffer)
    (instructions : list Instruction) (chunkSizeBytes : Z)
    : option (outcome Buffer) :=
  match divideToChunks fuel originalData chunkSizeBytes with
  | None => None
  | Some originalChunks =>
      Some (Buffer_concat (map (rebuilt_chunk originalChunks) instructions))
  end.

(** ** Patch size ([algo.test.ts]) *)

(** [calculatePatchSize]: two bytes for an index, its length for a buffer. *)
Definition calculatePatchSize (instructions : list Instruction) : Z :=
  fold_left
    (fun totalSize instruction =>
       match instruction with
       | CopyRef _ => totalSize + 2
       | Literal bytes => totalSize + blen bytes
       end)
    instructions 0.


(** The bytes of an ASCII string, as [Buffer.from(s)] gives them. *)
Definition str (s : string) : Buffer := list_byte_of_string s.

(** * Vocabulary of the specification *)

(** Closed form of the chunk table, to compare with the loop: chunk [j] is
    the slice that starts at [j * chunkSizeBytes]. *)
Definition chunk_at (file : Buffer) (chunkSizeBytes : Z) (j : nat) : Buffer :=
  subarray file (Z.of_nat j * chunkSizeBytes)
    (Z.of_nat j * chunkSizeBytes + chunkSizeBytes).

(** The number of chunks, ceil(length / chunkSizeBytes). *)
Definition chunk_count (file : Buffer) (chunkSizeBytes : Z) : nat :=
  Z.to_nat ((blen file + chunkSizeBytes - 1) / chunkSizeBytes).

(** The chunk table. *)
Definition chunks_of (file : Buffer) (chunkSizeBytes : Z) : list Buffer :=
  map (chunk_at file chunkSizeBytes) (seq 0 (chunk_count file chunkSizeBytes)).

(** [chunk] at position [j] is the last chunk of the table whose weak
    checksum is [w]: the entry of the index under [w] comes from it. *)
Definition last_with_weak (chunks : list Buffer) (w : Z) (j : nat) (chunk : Buffer)
    : Prop :=
  chunks !! j = Some chunk /\
  calculateWeakBlockChecksum chunk = w /\
  forall (j' : nat) (chunk' : Buffer),
    (j < j')%nat -> chunks !! j' = Some chunk' ->
    calculateWeakBlockChecksum chunk' <> w.

(** The entry that [forEach_set] writes for [chunk] at position [i]. *)
Definition entry_of (i : Z) (chunk : Buffer) : ChecksumEntry :=
  {| index := i; strong := calculateStrongBlockChecksum chunk |}.

(** The window test, as a proposition: the weak checksum of the window is
    a key of the index and the entry found there carries the strong
    checksum of the window. *)
Definition is_match (checksumMap : gmap Z ChecksumEntry) (windowBuffer : Buffer)
    (originalChecksum : ChecksumEntry) : Prop :=
  checksumMap !! calculateWeakBlockChecksum windowBuffer = Some originalChecksum /\
  originalChecksum.(strong) = calculateStrongBlockChecksum windowBuffer.

(** What the scan decides at cursor position [pos]: the entry of a verified
    match when a whole window fits there, nothing otherwise. *)
Definition match_at (checksumMap : gmap Z ChecksumEntry) (targetData : Buffer)
    (chunkSizeBytes pos : Z) : option ChecksumEntry :=
  if pos <=? blen targetData - chunkSizeBytes
  then probe checksumMap (subarray targetData pos (pos + chunkSizeBytes))
  else None.

(** The first instruction of the list is a [Literal]. *)
Definition starts_with_Literal (instructions : list Instruction) : Prop :=
  exists bytes rest, instructions = Literal bytes :: rest.

(** [emits m t c pos l]: the instructions [l] describe the target from
    position [pos] on.  A [CopyRef] stands for a window that matches, a
    [Literal] for a run of positions none of which matches; since no
    [Literal] follows a [Literal], a run stops only at a match or at the
    end of the target, so the runs are maximal. *)
Inductive emits (m : gmap Z ChecksumEntry) (t : Buffer) (c : Z)
    : Z -> list Instruction -> Prop :=
| emits_end (pos : Z) :
    pos = blen t ->
    emits m t c pos []
| emits_copy (pos : Z) (e : ChecksumEntry) (rest : list Instruction) :
    0 <= pos < blen t ->
    match_at m t c pos = Some e ->
    emits m t c (pos + c) rest ->
    emits m t c pos (CopyRef e.(index) :: rest)
| emits_literal (pos k : Z) (rest : list Instruction) :
    0 <= pos -> 0 < k -> pos + k <= blen t ->
    (forall p, pos <= p < pos + k -> match_at m t c p = None) ->
    ~ starts_with_Literal rest ->
    emits m t c (pos + k) rest ->
    emits m t c pos (Literal (subarray t pos (pos + k)) :: rest).

(** The state of the loop of [generateInstructions] at cursor [pos]: the
    pending buffers are the bytes of the positions [start .. pos - 1], one
    buffer per position, and none of these positions matched. *)
Record pending (m : gmap Z ChecksumEntry) (t : Buffer) (c : Z)
    (start pos : Z) (differingBuffer : list Buffer) : Prop := {
  pending_range : 0 <= start <= pos;
  pending_length : Z.of_nat (length differingBuffer) = pos - start;
  pending_bytes : concat differingBuffer = subarray t start pos;
  pending_nomatch : forall p, start <= p < pos -> match_at m t c p = None
}.

(** The bytes that an instruction stands for, given the chunk table. *)
Definition contribution (originalChunks : list Buffer) (instruction : Instruction)
    : Buffer :=
  match instruction with
  | CopyRef i => default [] (array_get originalChunks i)
  | Literal bytes => bytes
  end.

(** [piece] is what [instruction] stands for: the chunk of the original at
    its index, or its own bytes. *)
Definition stands_for (originalChunks : list Buffer) (instruction : Instruction)
    (piece : Buffer) : Prop :=
  match instruction with
  | CopyRef i => 0 <= i /\ originalChunks !! Z.to_nat i = Some piece
  | Literal bytes => piece = bytes
  end.

(** Two chunks with the same weak checksum have the same strong checksum. *)
Definition weak_separates (chunks : list Buffer) : Prop :=
  forall (i j : nat) (ci cj : Buffer),
    chunks !! i = Some ci -> chunks !! j = Some cj ->
    calculateWeakBlockChecksum ci = calculateWeakBlockChecksum cj ->
    calculateStrongBlockChecksum ci = calculateStrongBlockChecksum cj.

(** No two chunks have the same weak checksum. *)
Definition weak_distinct (chunks : list Buffer) : Prop :=
  forall (i j : nat) (ci cj : Buffer),
    chunks !! i = Some ci -> chunks !! j = Some cj ->
    calculateWeakBlockChecksum ci = calculateWeakBlockChecksum cj ->
    i = j.

(** The bytes left after the last whole chunk, as one [Literal]. *)
Definition trailing (B : Buffer) (c : Z) : list Instruction :=
  if blen B mod c =? 0 then []
  else [Literal (subarray B (blen B - blen B mod c) (blen B))].

(** No chunk of the original shares both checksums with a window of the
    target that has other bytes. *)
Definition collision_free (chunks : list Buffer) (targetData : Buffer) (c : Z)
    : Prop :=
  forall (chunk : Buffer) (pos : Z),
    chunk ∈ chunks -> 0 <= pos <= blen targetData - c ->
    calculateWeakBlockChecksum chunk =
      calculateWeakBlockChecksum (subarray targetData pos (pos + c)) ->
    calculateStrongBlockChecksum chunk =
      calculateStrongBlockChecksum (subarray targetData pos (pos + c)) ->
    chunk = subarray targetData pos (pos + c).

(** The five words of a SHA-1 state are 32-bit numbers. *)
Definition hstate_ok (h : SHA1.hstate) : Prop :=
  let '(h0, h1, h2, h3, h4) := h in
  0 <= h0 < 2 ^ 32 /\ 0 <= h1 < 2 ^ 32 /\ 0 <= h2 < 2 ^ 32 /\
  0 <= h3 < 2 ^ 32 /\ 0 <= h4 < 2 ^ 32.

(** Buffers of a given length, numbered in base 256. *)
Definition byte_of_Z (z : Z) : byte := default x00 (Byte.of_N (Z.to_N z)).

(** The [n] low bytes of [x], least significant first, and the number that
    a buffer stands for in this numbering. *)
Fixpoint le_bytes (n : nat) (x : Z) : Buffer :=
  match n with
  | O => []
  | S n' => byte_of_Z (x mod 256) :: le_bytes n' (x / 256)
  end.

Fixpoint le_val (l : Buffer) : Z :=
  match l with
  | [] => 0
  | b :: rest => byte_val b + 256 * le_val rest
  end.

(** The number of [CopyRef] and of [Literal] instructions of a list, and
    the number of bytes that its [Literal]s hold. *)
Fixpoint copy_count (l : list Instruction) : Z :=
  match l with
  | [] => 0
  | CopyRef _ :: rest => 1 + copy_count rest
  | Literal _ :: rest => copy_count rest
  end.

Fixpoint literal_count (l : list Instruction) : Z :=
  match l with
  | [] => 0
  | CopyRef _ :: rest => literal_count rest
  | Literal _ :: rest => 1 + literal_count rest
  end.

Fixpoint literal_bytes (l : list Instruction) : Z :=
  match l with
  | [] => 0
  | CopyRef _ :: rest => literal_bytes rest
  | Literal bytes :: rest => blen bytes + literal_bytes rest
  end.

(** The number of bytes of the target that a list of instructions accounts
    for: a whole window for a [CopyRef], its bytes for a [Literal]. *)
Definition covered (c : Z) (l : list Instruction) : Z :=
  c * copy_count l + literal_bytes l.

(** The windows of the target at the [n] positions from [pos] on at which a
    whole window fits. *)
Fixpoint run_windows (t : Buffer) (c pos : Z) (n : nat) : list Buffer :=
  match n with
  | O => []
  | S n' =>
      (if pos <=? blen t - c then [subarray t pos (pos + c)] else [])
      ++ run_windows t c (pos + 1) n'
  end.

(** The windows at the positions that the [Literal]s of an instruction
    sequence cover, the sequence being read from position [pos] of the
    target. *)
Fixpoint windows_of (t : Buffer) (c pos : Z) (l : list Instruction) : list Buffer :=
  match l with
  | [] => []
  | CopyRef _ :: rest => windows_of t c (pos + c) rest
  | Literal bytes :: rest =>
      run_windows t c pos (length bytes) ++ windows_of t c (pos + blen bytes) rest
  end.

(** The result of two calls of [rebuildTargetFromOriginal] put together:
    the buffers one after the other when both return. *)
Definition join_rebuilt (r1 r2 : option (outcome Buffer)) : option (outcome Buffer) :=
  match r1, r2 with
  | Some (Returned a), Some (Returned b) => Some (Returned (a ++ b))
  | Some _, Some _ => Some Thrown
  | _, _ => None
  end.

(** A character of a lowercase hexadecimal number. *)
Definition is_hex_char (ch : ascii) : Prop :=
  In ch (list_ascii_of_string "0123456789abcdef").

(** One turn of the scan at a position where a whole window fits: the
    window matched the entry with this index, or it did not. *)
Inductive scan_event : Type :=
| Matched (pos : Z) (index : Z)
| Missed (pos : Z).

(** The scan as the specification words it.  From cursor position [pos],
    as long as a whole window fits: the window at the cursor is a match
    exactly when its weak checksum is a key of the index and the entry
    under this key has the strong checksum of the window; on a match the
    cursor moves on by [c], otherwise by 1.  [stop] is the first cursor
    position at which no window fits. *)
Inductive scan (m : gmap Z ChecksumEntry) (t : Buffer) (c : Z)
    : Z -> list scan_event -> Z -> Prop :=
| scan_stop (pos : Z) :
    blen t - c < pos ->
    scan m t c pos [] pos
| scan_match (pos : Z) (e : ChecksumEntry) (rest : list scan_event) (stop : Z) :
    pos <= blen t - c ->
    m !! calculateWeakBlockChecksum (subarray t pos (pos + c)) = Some e ->
    e.(strong) = calculateStrongBlockChecksum (subarray t pos (pos + c)) ->
    scan m t c (pos + c) rest stop ->
    scan m t c pos (Matched pos e.(index) :: rest) stop
| scan_miss (pos : Z) (rest : list scan_event) (stop : Z) :
    pos <= blen t - c ->
    (forall e,
        m !! calculateWeakBlockChecksum (subarray t pos (pos + c)) = Some e ->
        e.(strong) <> calculateStrongBlockChecksum (subarray t pos (pos + c))) ->
    scan m t c (pos + 1) rest stop ->
    scan m t c pos (Missed pos :: rest) stop.

(** What [findDifferingChunks] keeps of a scan: the window of each miss. *)
Fixpoint missed_windows (t : Buffer) (c : Z) (trace : list scan_event)
    : list Buffer :=
  match trace with
  | [] => []
  | Matched _ _ :: rest => missed_windows t c rest
  | Missed pos :: rest => subarray t pos (pos + c) :: missed_windows t c rest
  end.

(** The bytes consumed one at a time, as one instruction. *)
Definition literal_of (bytes : Buffer) : list Instruction :=
  match bytes with
  | [] => []
  | _ => [Literal bytes]
  end.

(** What [generateInstructions] makes of a scan.  A miss at [pos] consumes
    the one byte at [pos]; a match puts out the bytes consumed since the
    last match, then the index of the entry; the bytes from [stop] on,
    where no window fits, are consumed like misses. *)
Fixpoint instructions_of (t : Buffer) (consumed : Buffer)
    (trace : list scan_event) (stop : Z) : list Instruction :=
  match trace with
  | [] => literal_of (consumed ++ subarray t stop (blen t))
  | Matched _ i :: rest =>
      literal_of consumed ++ CopyRef i :: instructions_of t [] rest stop
  | Missed pos :: rest =>
      instructions_of t (consumed ++ subarray t pos (pos + 1)) rest stop
  end.

(** * Properties *)

(** ** The model on known values *)

(** The checksums on published test values. *)
Example sha1_empty :
  calculateStrongBlockChecksum [] = "da39a3ee5e6b4b0d3255bfef95601890afd80709"%string.
Proof. vm_compute. reflexivity. Qed.

Example sha1_abc :
  calculateStrongBlockChecksum (str "abc") =
    "a9993e364706816aba3e25717850c26c9cd0d89d"%string.
Proof. vm_compute. reflexivity. Qed.

Example sha1_two_blocks :
  calculateStrongBlockChecksum
    (str "The quick brown fox jumps over the lazy dogThe quick brown fox jumps over the lazy dog") =
    "86c842aa0249527aad022bab2f8a9b4d77b82b12"%string.
Proof. vm_compute. reflexivity. Qed.

Example adler32_Wikipedia :
  calculateWeakBlockChecksum (str "Wikipedia") = 300286872.
Proof. vm_compute. reflexivity. Qed.

(** The scenarios of [algo.test.ts]. *)
Example test_chunk_split :
  divideToChunks 11 (str "1234567890") 3 =
    Some [str "123"; str "456"; str "789"; str "0"].
Proof. vm_compute. reflexivity. Qed.

Example test_no_chunks_differ :
  findDifferingChunks 11 (str "1234567890") (str "1234567890") 1 = Some [].
Proof. vm_compute. reflexivity. Qed.

Example test_differing_chunks :
  findDifferingChunks 13 (str "1234567890") (str "123456789XYZ") 1 =
    Some [str "X"; str "Y"; str "Z"].
Proof. vm_compute. reflexivity. Qed.

(** ** Buffers and slices *)

Lemma blen_nonneg (b : Buffer) : 0 <= blen b.
Proof. unfold blen. lia. Qed.

Lemma blen_app (a b : Buffer) : blen (a ++ b) = blen a + blen b.
Proof. unfold blen. rewrite length_app. lia. Qed.

Lemma adjustOffset_nonneg (offset len : Z) :
  0 <= offset -> 0 <= len -> adjustOffset offset len = Z.min offset len.
Proof.
  intros Ho Hl. unfold adjustOffset.
  destruct (Z.eqb_spec offset 0); [lia |].
  destruct (Z.ltb_spec offset 0); [lia |].
  destruct (Z.ltb_spec offset len); lia.
Qed.

(** With both bounds non-negative, [subarray] is the slice that starts at
    [s] and holds at most [e - s] bytes. *)
Lemma subarray_nonneg (buf : Buffer) (s e : Z) :
  0 <= s -> 0 <= e ->
  subarray buf s e = take (Z.to_nat (e - s)) (drop (Z.to_nat s) buf).
Proof.
  intros Hs He. unfold subarray.
  rewrite !adjustOffset_nonneg by (unfold blen; lia). unfold blen.
  destruct (Z_lt_le_dec s (Z.of_nat (length buf))) as [Hlt | Hge].
  - rewrite (Z.min_l s) by lia.
    destruct (Z.ltb_spec s (Z.min e (Z.of_nat (length buf)))) as [H | H].
    + destruct (Z_lt_le_dec e (Z.of_nat (length buf))).
      * by rewrite Z.min_l by lia.
      * rewrite Z.min_r by lia.
        rewrite !take_ge; [done | rewrite length_drop; lia ..].
    + replace (Z.to_nat (e - s)) with 0%nat by lia. done.
  - rewrite !drop_ge by lia. by rewrite !take_nil.
Qed.

Lemma blen_subarray (buf : Buffer) (s e : Z) :
  0 <= s -> s <= e ->
  blen (subarray buf s e) = Z.max 0 (Z.min (e - s) (blen buf - s)).
Proof.
  intros Hs He. rewrite subarray_nonneg by lia. unfold blen.
  rewrite length_take, length_drop. lia.
Qed.

(** Adjacent slices glue together. *)
Lemma subarray_app (buf : Buffer) (s m e : Z) :
  0 <= s -> s <= m -> m <= e ->
  subarray buf s m ++ subarray buf m e = subarray buf s e.
Proof.
  intros Hs Hm He. rewrite !subarray_nonneg by lia.
  replace (Z.to_nat (e - s)) with (Z.to_nat (m - s) + Z.to_nat (e - m))%nat by lia.
  replace (drop (Z.to_nat m) buf)
    with (drop (Z.to_nat (m - s)) (drop (Z.to_nat s) buf))
    by (rewrite drop_drop; f_equal; lia).
  apply take_take_drop.
Qed.

Lemma subarray_all (buf : Buffer) (e : Z) :
  blen buf <= e -> subarray buf 0 e = buf.
Proof.
  intros He. pose proof (blen_nonneg buf). rewrite subarray_nonneg by lia.
  rewrite Z.sub_0_r. change (Z.to_nat 0) with 0%nat. rewrite drop_0.
  rewrite take_ge; [done | unfold blen in *; lia].
Qed.

Lemma subarray_empty (buf : Buffer) (s e : Z) :
  0 <= s -> 0 <= e -> (e <= s \/ blen buf <= s) -> subarray buf s e = [].
Proof.
  intros Hs He [H | H]; rewrite subarray_nonneg by lia.
  - replace (Z.to_nat (e - s)) with 0%nat by lia. done.
  - rewrite drop_ge; [by rewrite take_nil | unfold blen in *; lia].
Qed.

(** ** Fuel *)

(** A loop that exits with some fuel exits with the same result on any
    larger fuel. *)
Lemma divideToChunks_loop_fuel (file : Buffer) (c : Z) :
  forall (fuel fuel' : nat) (i : Z) (chunks result : list Buffer),
    (fuel <= fuel')%nat ->
    divideToChunks_loop fuel file c i chunks = Some result ->
    divideToChunks_loop fuel' file c i chunks = Some result.
Proof.
  induction fuel as [| fuel IH]; intros fuel' i chunks result Hle H; [done |].
  destruct fuel' as [| fuel']; [lia |].
  cbn [divideToChunks_loop] in *.
  destruct (i <? blen file); [| done]. apply (IH fuel'); [lia | done].
Qed.

Lemma findDifferingChunks_loop_fuel (m : gmap Z ChecksumEntry) (t : Buffer) (c : Z) :
  forall (fuel fuel' : nat) (pos : Z) (w : Buffer) (dc result : list Buffer),
    (fuel <= fuel')%nat ->
    findDifferingChunks_loop fuel m t c pos w dc = Some result ->
    findDifferingChunks_loop fuel' m t c pos w dc = Some result.
Proof.
  induction fuel as [| fuel IH]; intros fuel' pos w dc result Hle H; [done |].
  destruct fuel' as [| fuel']; [lia |].
  cbn [findDifferingChunks_loop] in *.
  destruct (pos <=? blen t - c); [| done].
  destruct (probe m w); apply (IH fuel'); done || lia.
Qed.

Lemma generateInstructions_loop_fuel (m : gmap Z ChecksumEntry) (t : Buffer) (c : Z) :
  forall (fuel fuel' : nat) (pos : Z) (diff : list Buffer)
         (instrs result : list Instruction),
    (fuel <= fuel')%nat ->
    generateInstructions_loop fuel m t c pos diff instrs = Some result ->
    generateInstructions_loop fuel' m t c pos diff instrs = Some result.
Proof.
  induction fuel as [| fuel IH]; intros fuel' pos diff instrs result Hle H; [done |].
  destruct fuel' as [| fuel']; [lia |].
  cbn [generateInstructions_loop] in *.
  destruct (pos <? blen t); [| done].
  destruct (if pos <=? blen t - c then probe m (subarray t pos (pos + c)) else None);
    apply (IH fuel'); done || lia.
Qed.

(** ** Chunker *)

Lemma chunk_count_lt (file : Buffer) (c : Z) (k : nat) :
  0 < c -> (k < chunk_count file c)%nat <-> Z.of_nat k * c < blen file.
Proof.
  intros Hc. unfold chunk_count. pose proof (blen_nonneg file) as Hl.
  assert (Hq : 0 <= (blen file + c - 1) / c) by (apply Z.div_pos; lia).
  split; intros H.
  - assert (Z.of_nat k + 1 <= (blen file + c - 1) / c) as Hk by lia.
    pose proof (Z.mul_div_le (blen file + c - 1) c Hc). nia.
  - assert (Z.of_nat k + 1 <= (blen file + c - 1) / c); [| lia].
    apply Z.div_le_lower_bound; nia.
Qed.

Lemma chunk_count_le_length (file : Buffer) (c : Z) :
  0 < c -> (chunk_count file c <= length file)%nat.
Proof.
  intros Hc. destruct (chunk_count file c) as [| n] eqn:E; [lia |].
  assert (n < chunk_count file c)%nat as H by lia.
  apply chunk_count_lt in H; [| done]. unfold blen in H. nia.
Qed.

Lemma divideToChunks_loop_exits (file : Buffer) (c : Z) :
  0 < c ->
  forall (fuel k : nat) (chunks : list Buffer),
    (k <= chunk_count file c)%nat ->
    (chunk_count file c - k < fuel)%nat ->
    divideToChunks_loop fuel file c (Z.of_nat k * c) chunks =
      Some (chunks ++ map (chunk_at file c) (seq k (chunk_count file c - k))).
Proof.
  intros Hc. induction fuel as [| fuel IH]; intros k chunks Hk Hfuel; [lia |].
  cbn [divideToChunks_loop].
  destruct (Z.ltb_spec (Z.of_nat k * c) (blen file)) as [Hlt | Hge].
  - apply chunk_count_lt in Hlt; [| done].
    replace (Z.of_nat k * c + c) with (Z.of_nat (S k) * c) by (clear; lia).
    rewrite IH by lia.
    replace (chunk_count file c - k)%nat with (S (chunk_count file c - S k)) by lia.
    cbn [seq map]. rewrite <- app_assoc. cbn [app]. do 3 f_equal.
    unfold chunk_at. f_equal. clear. lia.
  - assert (~ (k < chunk_count file c)%nat) by (rewrite chunk_count_lt; lia).
    replace (chunk_count file c - k)%nat with 0%nat by lia.
    simpl. by rewrite app_nil_r.
Qed.

(** For a positive chunk size the loop exits and returns the chunk table. *)
Lemma divideToChunks_returns (fuel : nat) (file : Buffer) (c : Z) :
  0 < c -> (length file < fuel)%nat ->
  divideToChunks fuel file c = Some (chunks_of file c).
Proof.
  intros Hc Hfuel. unfold divideToChunks, chunks_of.
  pose proof (chunk_count_le_length file c Hc).
  change 0 with (Z.of_nat 0 * c).
  rewrite divideToChunks_loop_exits by lia.
  by rewrite Nat.sub_0_r.
Qed.

Lemma length_chunks_of (file : Buffer) (c : Z) :
  length (chunks_of file c) = chunk_count file c.
Proof. unfold chunks_of. by rewrite length_map, length_seq. Qed.

Lemma chunks_of_lookup (file : Buffer) (c : Z) (j : nat) :
  (j < chunk_count file c)%nat ->
  chunks_of file c !! j = Some (chunk_at file c j).
Proof.
  intros Hj. unfold chunks_of. rewrite list_lookup_fmap.
  by rewrite lookup_seq_lt.
Qed.

Lemma chunks_of_lookup_Some (file : Buffer) (c : Z) (j : nat) (chunk : Buffer) :
  chunks_of file c !! j = Some chunk ->
  (j < chunk_count file c)%nat /\ chunk = chunk_at file c j.
Proof.
  intros H. assert (j < chunk_count file c)%nat as Hj.
  { rewrite <- length_chunks_of. by eapply lookup_lt_Some. }
  rewrite chunks_of_lookup in H by done. split; congruence.
Qed.

Lemma blen_chunk_at (file : Buffer) (c : Z) (j : nat) :
  0 < c -> blen (chunk_at file c j) = Z.max 0 (Z.min c (blen file - Z.of_nat j * c)).
Proof.
  intros Hc. unfold chunk_at. rewrite blen_subarray by nia. f_equal. f_equal. lia.
Qed.

Lemma concat_chunks_prefix (file : Buffer) (c : Z) (n : nat) :
  0 < c ->
  concat (map (chunk_at file c) (seq 0 n)) = subarray file 0 (Z.of_nat n * c).
Proof.
  intros Hc. induction n as [| n IH].
  - simpl. by rewrite subarray_empty by lia.
  - rewrite seq_S, map_app, concat_app, IH. simpl. rewrite app_nil_r.
    unfold chunk_at. rewrite subarray_app by nia. f_equal. lia.
Qed.

Lemma concat_chunks_of (file : Buffer) (c : Z) :
  0 < c -> concat (chunks_of file c) = file.
Proof.
  intros Hc. unfold chunks_of. rewrite concat_chunks_prefix by done.
  apply subarray_all.
  destruct (Z_lt_le_dec (Z.of_nat (chunk_count file c) * c) (blen file)) as [H | H];
    [| done].
  apply chunk_count_lt in H; [lia | done].
Qed.

Lemma chunk_count_ceil (file : Buffer) (c : Z) :
  0 < c ->
  Z.of_nat (chunk_count file c) =
    blen file / c + (if blen file mod c =? 0 then 0 else 1).
Proof.
  intros Hc. unfold chunk_count. pose proof (blen_nonneg file) as Hl.
  pose proof (Z.div_mod (blen file) c ltac:(lia)) as Hdm.
  pose proof (Z.mod_pos_bound (blen file) c Hc) as Hm.
  assert (0 <= blen file / c) as Hq by (apply Z.div_pos; lia).
  set (q := blen file / c) in *. set (r := blen file mod c) in *.
  destruct (Z.eqb_spec r 0) as [Hr | Hr].
  - rewrite <- (Z.div_unique (blen file + c - 1) c q (c - 1)); lia.
  - rewrite <- (Z.div_unique (blen file + c - 1) c (q + 1) (r - 1)); lia.
Qed.

(** C3.  For a buffer of length L and a chunk size C > 0, [divideToChunks]
    returns ceil(L/C) chunks; every chunk but the last holds C bytes, the
    last one holds L mod C bytes (C when C divides L); and the chunks
    concatenated in order give back the buffer. *)
Theorem divideToChunks_correct (fuel : nat) (file : Buffer) (C : Z) :
  0 < C -> (length file < fuel)%nat ->
  exists chunks,
    divideToChunks fuel file C = Some chunks /\
    Z.of_nat (length chunks) =
      blen file / C + (if blen file mod C =? 0 then 0 else 1) /\
    (forall (j : nat) (chunk : Buffer),
        chunks !! j = Some chunk ->
        blen chunk =
          if (S j <? length chunks)%nat then C
          else if blen file mod C =? 0 then C else blen file mod C) /\
    concat chunks = file.
Proof.
  intros HC Hfuel. exists (chunks_of file C).
  split; [by apply divideToChunks_returns |].
  rewrite length_chunks_of.
  pose proof (chunk_count_ceil file C HC) as Hn.
  split; [done |]. split; [| by apply concat_chunks_of].
  intros j chunk Hj. apply chunks_of_lookup_Some in Hj as [Hj ->].
  rewrite blen_chunk_at by done.
  pose proof (Z.div_mod (blen file) C ltac:(lia)) as Hdm.
  pose proof (Z.mod_pos_bound (blen file) C HC) as Hm.
  set (q := blen file / C) in *. set (r := blen file mod C) in *.
  destruct (Nat.ltb_spec (S j) (chunk_count file C)) as [Hlast | Hlast].
  - apply chunk_count_lt in Hlast; [| done]. lia.
  - assert (Z.of_nat j = Z.of_nat (chunk_count file C) - 1) as Hje by lia.
    rewrite Hn in Hje. destruct (Z.eqb_spec r 0); nia.
Qed.

Lemma divideToChunks_correct_witness :
  exists chunks,
    divideToChunks 11 (str "1234567890") 3 = Some chunks /\
    Z.of_nat (length chunks) = 4 /\
    (forall (j : nat) (chunk : Buffer),
        chunks !! j = Some chunk ->
        blen chunk = if (S j <? length chunks)%nat then 3 else 1) /\
    concat chunks = str "1234567890".
Proof.
  apply (divideToChunks_correct 11 (str "1234567890") 3); [lia | simpl; lia].
Defined.

(** ** Checksum index *)

Lemma forEach_set_absent (chunks : list Buffer) (w : Z) :
  (forall chunk, chunk ∈ chunks -> calculateWeakBlockChecksum chunk <> w) ->
  forall (i : Z) (m : gmap Z ChecksumEntry),
    forEach_set chunks i m !! w = m !! w.
Proof.
  induction chunks as [| c0 rest IH]; intros Hall i m; [done |].
  cbn [forEach_set]. rewrite IH.
  - apply lookup_insert_ne. apply Hall. left.
  - intros chunk Hin. apply Hall. by right.
Qed.

(** Last write wins. *)
Lemma forEach_set_last (chunks : list Buffer) (w : Z) :
  forall (j : nat) (chunk : Buffer) (i : Z) (m : gmap Z ChecksumEntry),
    last_with_weak chunks w j chunk ->
    forEach_set chunks i m !! w = Some (entry_of (i + Z.of_nat j) chunk).
Proof.
  induction chunks as [| c0 rest IH]; intros j chunk i m (Hj & Hw & Hlast).
  - by rewrite lookup_nil in Hj.
  - cbn [forEach_set]. destruct j as [| j].
    + injection Hj as ->. rewrite forEach_set_absent.
      * rewrite Hw, lookup_insert_eq. unfold entry_of. do 2 f_equal. lia.
      * intros chunk' [j' Hj']%list_elem_of_lookup.
        apply (Hlast (S j')); [lia | done].
    + rewrite (IH j chunk).
      * unfold entry_of. do 2 f_equal. lia.
      * split; [done |]. split; [done |].
        intros j' chunk' Hlt Hj'. apply (Hlast (S j')); [lia | done].
Qed.

(** Every entry that the loop leaves in the index was either there before
    or comes from the last chunk with that weak checksum. *)
Lemma forEach_set_lookup (chunks : list Buffer) (w : Z) (e : ChecksumEntry) :
  forall (i : Z) (m : gmap Z ChecksumEntry),
    forEach_set chunks i m !! w = Some e ->
    (m !! w = Some e /\
     forall chunk, chunk ∈ chunks -> calculateWeakBlockChecksum chunk <> w) \/
    (exists (j : nat) (chunk : Buffer),
        last_with_weak chunks w j chunk /\ e = entry_of (i + Z.of_nat j) chunk).
Proof.
  induction chunks as [| c0 rest IH]; intros i m Hlook.
  - left. split; [done |]. intros chunk Hin. by apply not_elem_of_nil in Hin.
  - cbn [forEach_set] in Hlook.
    apply IH in Hlook as [[Hm Hnone] | (j & chunk & (Hj & Hw & Hlast) & ->)].
    + destruct (decide (calculateWeakBlockChecksum c0 = w)) as [Heq | Hne].
      * right. exists 0%nat, c0. rewrite Heq, lookup_insert_eq in Hm.
        injection Hm as <-. split.
        -- split; [done |]. split; [done |].
           intros [| j'] chunk' Hlt Hj'; [lia |].
           apply Hnone. apply list_elem_of_lookup. by exists j'.
        -- unfold entry_of. do 2 f_equal. lia.
      * left. rewrite lookup_insert_ne in Hm by done. split; [done |].
        intros chunk [-> | Hin]%elem_of_cons; [done | by apply Hnone].
    + right. exists (S j), chunk. split.
      * split; [done |]. split; [done |].
        intros [| j'] chunk' Hlt Hj'; [lia |].
        apply (Hlast j'); [lia | done].
      * unfold entry_of. f_equal. lia.
Qed.

(** The index built by the two public operations. *)
Lemma checksumMap_lookup (chunks : list Buffer) (w : Z) (e : ChecksumEntry) :
  forEach_set chunks 0 ∅ !! w = Some e ->
  exists (j : nat) (chunk : Buffer),
    last_with_weak chunks w j chunk /\ e = entry_of (Z.of_nat j) chunk.
Proof.
  intros [[Hm _] | (j & chunk & Hl & ->)]%forEach_set_lookup.
  - by rewrite lookup_empty in Hm.
  - by exists j, chunk.
Qed.

Lemma probe_Some (m : gmap Z ChecksumEntry) (w : Buffer) (e : ChecksumEntry) :
  probe m w = Some e <-> is_match m w e.
Proof.
  unfold probe, is_match.
  destruct (m !! calculateWeakBlockChecksum w) as [e' |].
  - destruct (String.eqb_spec (strong e') (calculateStrongBlockChecksum w))
      as [Heq | Hne].
    + split; [by intros [= <-] | by intros [[= <-] _]].
    + split; [done | by intros [[= <-] Hs]].
  - split; [done | by intros [? _]].
Qed.

Lemma probe_None (m : gmap Z ChecksumEntry) (w : Buffer) :
  probe m w = None <-> ~ exists e, is_match m w e.
Proof.
  split.
  - intros Hp [e He%probe_Some]. congruence.
  - intros Hn. destruct (probe m w) as [e |] eqn:E; [| done].
    exfalso. apply Hn. exists e. by apply probe_Some.
Qed.

(** ** Matcher: the shape of the instruction sequence *)

Lemma flush_nil (instructions : list Instruction) :
  flush [] instructions = instructions.
Proof. done. Qed.

Lemma flush_nonempty (differingBuffer : list Buffer) (instructions : list Instruction) :
  differingBuffer <> [] ->
  flush differingBuffer instructions =
    instructions ++ [Literal (concat differingBuffer)].
Proof. by destruct differingBuffer. Qed.

Lemma pending_nil (m : gmap Z ChecksumEntry) (t : Buffer) (c pos : Z) :
  0 <= pos -> pending m t c pos pos [].
Proof.
  intros Hpos. split; [lia | simpl; lia | | lia].
  simpl. by rewrite subarray_empty by lia.
Qed.

Lemma pending_push (m : gmap Z ChecksumEntry) (t : Buffer) (c start pos : Z)
    (differingBuffer : list Buffer) :
  pending m t c start pos differingBuffer ->
  match_at m t c pos = None ->
  pending m t c start (pos + 1)
    (differingBuffer ++ [subarray t pos (pos + 1)]).
Proof.
  intros [Hr Hl Hb Hn] Hpos. split.
  - lia.
  - rewrite length_app. simpl. lia.
  - rewrite concat_app, Hb. simpl. rewrite app_nil_r.
    apply subarray_app; lia.
  - intros p Hp. destruct (decide (p = pos)) as [-> | Hne]; [done |].
    apply Hn. lia.
Qed.

Lemma generateInstructions_loop_emits (m : gmap Z ChecksumEntry) (t : Buffer) (c : Z) :
  0 < c ->
  forall (fuel : nat) (start pos : Z) (differingBuffer : list Buffer)
         (instructions : list Instruction),
    pos <= blen t ->
    blen t - pos < Z.of_nat fuel ->
    pending m t c start pos differingBuffer ->
    exists out,
      generateInstructions_loop fuel m t c pos differingBuffer instructions =
        Some (instructions ++ out) /\
      emits m t c start out.
Proof.
  intros Hc. induction fuel as [| fuel IH];
    intros start pos diff instrs Hpos Hfuel Hpend; [lia |].
  pose proof (pending_range _ _ _ _ _ _ Hpend) as Hr.
  pose proof (pending_length _ _ _ _ _ _ Hpend) as Hl.
  cbn [generateInstructions_loop].
  change (if pos <=? blen t - c then probe m (subarray t pos (pos + c)) else None)
    with (match_at m t c pos).
  destruct (Z.ltb_spec pos (blen t)) as [Hlt | Hge].
  - destruct (match_at m t c pos) as [e |] eqn:Hm.
    + assert (pos + c <= blen t) as Hfit.
      { unfold match_at in Hm. destruct (Z.leb_spec pos (blen t - c)); [lia | done]. }
      destruct (IH (pos + c) (pos + c) [] (flush diff instrs ++ [CopyRef (index e)]))
        as (out & Hout & Hemits); [lia | lia | apply pending_nil; lia |].
      rewrite Hout.
      assert (emits m t c pos (CopyRef (index e) :: out)) as Hcopy
        by (apply emits_copy; [lia | done | done]).
      destruct diff as [| d diff].
      * exists (CopyRef (index e) :: out). rewrite flush_nil, <- app_assoc.
        split; [done |]. simpl in Hl. by replace start with pos by lia.
      * exists (Literal (concat (d :: diff)) :: CopyRef (index e) :: out).
        rewrite flush_nonempty by done. rewrite <- !app_assoc.
        split; [done |]. rewrite (pending_bytes _ _ _ _ _ _ Hpend).
        replace pos with (start + (pos - start)) at 1 by lia.
        apply emits_literal.
        -- lia.
        -- simpl in Hl. lia.
        -- lia.
        -- intros p Hp. apply (pending_nomatch _ _ _ _ _ _ Hpend). lia.
        -- intros (b & r & [=]).
        -- by replace (start + (pos - start)) with pos by lia.
    + apply IH; [lia | lia | by apply pending_push].
  - assert (pos = blen t) as -> by lia.
    destruct diff as [| d diff].
    + exists []. rewrite flush_nil, app_nil_r. split; [done |].
      simpl in Hl. replace start with (blen t) by lia. by apply emits_end.
    + exists [Literal (concat (d :: diff))]. rewrite flush_nonempty by done.
      split; [done |]. rewrite (pending_bytes _ _ _ _ _ _ Hpend).
      replace (blen t) with (start + (blen t - start)) at 1 by lia.
      apply emits_literal.
      * lia.
      * simpl in Hl. lia.
      * lia.
      * intros p Hp. apply (pending_nomatch _ _ _ _ _ _ Hpend). lia.
      * intros (b & r & [=]).
      * apply emits_end. lia.
Qed.

Lemma generateInstructions_emits (fuel : nat) (originalData targetData : Buffer) (c : Z) :
  0 < c ->
  (length originalData < fuel)%nat -> (length targetData < fuel)%nat ->
  exists out,
    generateInstructions fuel originalData targetData c = Some out /\
    emits (forEach_set (chunks_of originalData c) 0 ∅) targetData c 0 out.
Proof.
  intros Hc Ho Ht. unfold generateInstructions.
  rewrite divideToChunks_returns by done.
  destruct (generateInstructions_loop_emits
              (forEach_set (chunks_of originalData c) 0 ∅) targetData c Hc
              fuel 0 0 [] [])
    as (out & Hout & Hemits).
  - apply blen_nonneg.
  - unfold blen. lia.
  - by apply pending_nil.
  - by exists out.
Qed.

(** What follows a maximal run: the end of the target or a match. *)
Lemma emits_not_Literal (m : gmap Z ChecksumEntry) (t : Buffer) (c pos : Z)
    (l : list Instruction) :
  emits m t c pos l -> ~ starts_with_Literal l ->
  pos = blen t \/ (pos < blen t /\ exists e, match_at m t c pos = Some e).
Proof.
  intros H Hnl. destruct H as [pos Hend | pos e rest Hpos Hm _ | pos k rest].
  - by left.
  - right. split; [lia | by exists e].
  - exfalso. apply Hnl. by eexists _, _.
Qed.

(** The relation determines the instruction sequence. *)
Lemma emits_functional (m : gmap Z ChecksumEntry) (t : Buffer) (c : Z) :
  0 < c ->
  forall (pos : Z) (l1 l2 : list Instruction),
    emits m t c pos l1 -> emits m t c pos l2 -> l1 = l2.
Proof.
  intros Hc pos l1 l2 H1. revert l2.
  induction H1 as [pos Hend | pos e rest Hpos Hm Hrest IH
                  | pos k rest Hpos Hk Hfit Hno Hnl Hrest IH];
    intros l2 H2.
  - inversion H2; subst; [done | lia | lia].
  - inversion H2 as [| pos' e' rest' Hpos' Hm' Hrest' | pos' k' rest' ? ? ? Hno']; subst.
    + lia.
    + rewrite Hm in Hm'. injection Hm' as <-. f_equal. by apply IH.
    + rewrite Hno' in Hm by lia. done.
  - inversion H2 as [| pos' e' rest' Hpos' Hm'
                    | pos' k' rest' ? Hk' Hfit' Hno' Hnl' Hrest']; subst.
    + lia.
    + rewrite Hno in Hm' by lia. done.
    + assert (k = k') as <-.
      { destruct (Z.lt_total k k') as [Hlt | [Heq | Hgt]]; [| done |]; exfalso.
        - destruct (emits_not_Literal _ _ _ _ _ Hrest Hnl) as [He | [_ [e He]]];
            [lia |].
          rewrite Hno' in He by lia. done.
        - destruct (emits_not_Literal _ _ _ _ _ Hrest' Hnl') as [He | [_ [e He]]];
            [lia |].
          rewrite Hno in He by lia. done. }
      f_equal. by apply IH.
Qed.

(** Consequences of the shape. *)

Lemma emits_no_adjacent_Literals (m : gmap Z ChecksumEntry) (t : Buffer) (c pos : Z)
    (l : list Instruction) :
  emits m t c pos l ->
  forall l1 b1 b2 l2, l <> l1 ++ Literal b1 :: Literal b2 :: l2.
Proof.
  induction 1 as [pos Hend | pos e rest Hpos Hm Hrest IH
                 | pos k rest Hpos Hk Hfit Hno Hnl Hrest IH];
    intros l1 b1 b2 l2 Heq.
  - by destruct l1.
  - destruct l1 as [| i l1]; [done |]. injection Heq as _ Heq. by eapply IH.
  - destruct l1 as [| i l1].
    + injection Heq as _ Heq. apply Hnl. by eexists _, _.
    + injection Heq as _ Heq. by eapply IH.
Qed.

Lemma emits_Literal_nonempty (m : gmap Z ChecksumEntry) (t : Buffer) (c pos : Z)
    (l : list Instruction) :
  emits m t c pos l ->
  forall bytes, Literal bytes ∈ l -> 0 < blen bytes.
Proof.
  induction 1 as [pos Hend | pos e rest Hpos Hm Hrest IH
                 | pos k rest Hpos Hk Hfit Hno Hnl Hrest IH];
    intros bytes Hin.
  - by apply not_elem_of_nil in Hin.
  - apply elem_of_cons in Hin as [[=] | Hin]. by apply IH.
  - apply elem_of_cons in Hin as [[= ->] | Hin]; [| by apply IH].
    rewrite blen_subarray by lia. lia.
Qed.

Lemma emits_CopyRef_match (m : gmap Z ChecksumEntry) (t : Buffer) (c pos : Z)
    (l : list Instruction) :
  emits m t c pos l ->
  forall i, CopyRef i ∈ l ->
    exists p e, match_at m t c p = Some e /\ index e = i.
Proof.
  induction 1 as [pos Hend | pos e rest Hpos Hm Hrest IH
                 | pos k rest Hpos Hk Hfit Hno Hnl Hrest IH];
    intros i Hin.
  - by apply not_elem_of_nil in Hin.
  - apply elem_of_cons in Hin as [[= ->] | Hin]; [by exists pos, e | by apply IH].
  - apply elem_of_cons in Hin as [[=] | Hin]. by apply IH.
Qed.

Lemma match_at_Some (m : gmap Z ChecksumEntry) (t : Buffer) (c pos : Z)
    (e : ChecksumEntry) :
  match_at m t c pos = Some e <->
  pos <= blen t - c /\ is_match m (subarray t pos (pos + c)) e.
Proof.
  unfold match_at. destruct (Z.leb_spec pos (blen t - c)).
  - rewrite probe_Some. split; [by intros | by intros [_ ?]].
  - split; [done | lia].
Qed.

(** ** Reconstructor *)

Lemma array_get_Some {A} (arr : list A) (i : Z) :
  0 <= i < Z.of_nat (length arr) -> is_Some (array_get arr i).
Proof.
  intros Hi. unfold array_get. destruct (Z.ltb_spec i 0); [lia |].
  apply lookup_lt_is_Some. lia.
Qed.

Lemma array_get_None {A} (arr : list A) (i : Z) :
  Z.of_nat (length arr) <= i -> array_get arr i = None.
Proof.
  intros Hi. unfold array_get. destruct (Z.ltb_spec i 0); [done |].
  apply lookup_ge_None. lia.
Qed.

Lemma Buffer_concat_Thrown (l : list (option Buffer)) :
  None ∈ l -> Buffer_concat l = Thrown.
Proof.
  induction l as [| [b |] l IH]; intros Hin.
  - by apply not_elem_of_nil in Hin.
  - apply elem_of_cons in Hin as [[=] | Hin]. simpl. by rewrite IH.
  - done.
Qed.

Lemma Buffer_concat_Returned (originalChunks : list Buffer)
    (instructions : list Instruction) :
  (forall i, CopyRef i ∈ instructions -> 0 <= i < Z.of_nat (length originalChunks)) ->
  Buffer_concat (map (rebuilt_chunk originalChunks) instructions) =
    Returned (concat (map (contribution originalChunks) instructions)).
Proof.
  induction instructions as [| [i | bytes] rest IH]; intros Hrange; [done | |].
  - destruct (array_get_Some originalChunks i) as [chunk Hchunk].
    { apply Hrange. left. }
    simpl. rewrite Hchunk, IH; [done |].
    intros i' Hin. apply Hrange. by right.
  - simpl. rewrite IH; [done |].
    intros i' Hin. apply Hrange. by right.
Qed.

Lemma Buffer_concat_in_range (originalChunks : list Buffer)
    (instructions : list Instruction) :
  (forall i, CopyRef i ∈ instructions -> 0 <= i < Z.of_nat (length originalChunks)) ->
  exists rebuilt,
    Buffer_concat (map (rebuilt_chunk originalChunks) instructions) = Returned rebuilt.
Proof. intros H. eexists. by apply Buffer_concat_Returned. Qed.

(** C7.  In the output of [generateInstructions] every maximal run of
    cursor positions that do not match is one [Literal] holding exactly the
    bytes of these positions in order: the output describes the target from
    position 0 in the sense of [emits], and it never has two [Literal]
    instructions in a row. *)
Theorem literal_coalescing (fuel : nat) (originalData targetData : Buffer) (C : Z) :
  0 < C ->
  (length originalData < fuel)%nat -> (length targetData < fuel)%nat ->
  exists chunks out,
    divideToChunks fuel originalData C = Some chunks /\
    generateInstructions fuel originalData targetData C = Some out /\
    emits (forEach_set chunks 0 ∅) targetData C 0 out /\
    (forall l1 b1 b2 l2, out <> l1 ++ Literal b1 :: Literal b2 :: l2).
Proof.
  intros HC Ho Ht.
  destruct (generateInstructions_emits fuel originalData targetData C HC Ho Ht)
    as (out & Hout & Hemits).
  exists (chunks_of originalData C), out.
  split; [by apply divideToChunks_returns |].
  split; [done |]. split; [done |].
  by eapply emits_no_adjacent_Literals.
Qed.

Lemma literal_coalescing_witness :
  exists chunks out,
    divideToChunks 12 (str "1234567890") 3 = Some chunks /\
    generateInstructions 12 (str "1234567890") (str "12X34567890") 3 = Some out /\
    emits (forEach_set chunks 0 ∅) (str "12X34567890") 3 0 out /\
    (forall l1 b1 b2 l2, out <> l1 ++ Literal b1 :: Literal b2 :: l2).
Proof.
  apply (literal_coalescing 12 (str "1234567890") (str "12X34567890") 3);
    [lia | simpl; lia | simpl; lia].
Defined.

(** C8.  An empty target gives no instruction; a non-empty target shorter
    than the chunk size gives one [Literal] with the whole target. *)
Theorem short_target (fuel : nat) (originalData targetData : Buffer) (C : Z) :
  0 < C ->
  (length originalData < fuel)%nat -> (length targetData < fuel)%nat ->
  (targetData = [] ->
   generateInstructions fuel originalData targetData C = Some []) /\
  (targetData <> [] -> blen targetData < C ->
   generateInstructions fuel originalData targetData C =
     Some [Literal targetData]).
Proof.
  intros HC Ho Ht.
  destruct (generateInstructions_emits fuel originalData targetData C HC Ho Ht)
    as (out & Hout & Hemits).
  rewrite Hout. split.
  - intros ->. f_equal.
    eapply emits_functional; [done | done |]. by apply emits_end.
  - intros Hne Hshort. f_equal.
    eapply emits_functional; [done | done |].
    assert (0 < blen targetData) as Hpos
      by (destruct targetData; [done | unfold blen; simpl; lia]).
    replace [Literal targetData]
      with [Literal (subarray targetData 0 (0 + blen targetData))]
      by (by rewrite subarray_all by lia).
    apply emits_literal.
    + lia.
    + done.
    + lia.
    + intros p Hp. unfold match_at.
      destruct (Z.leb_spec p (blen targetData - C)); [lia | done].
    + intros (b & r & [=]).
    + apply emits_end. lia.
Qed.

Lemma short_target_witness :
  generateInstructions 11 (str "1234567890") [] 3 = Some [] /\
  generateInstructions 11 (str "1234567890") (str "ab") 3 =
    Some [Literal (str "ab")].
Proof.
  split.
  - refine (proj1 (short_target 11 (str "1234567890") [] 3 _ _ _) _);
      [lia | simpl; lia | simpl; lia | reflexivity].
  - refine (proj2 (short_target 11 (str "1234567890") (str "ab") 3 _ _ _) _ _);
      [lia | simpl; lia | simpl; lia | discriminate | unfold blen; simpl; lia].
Defined.

Lemma emits_in_range (chunks : list Buffer) (t : Buffer) (c pos : Z)
    (l : list Instruction) :
  emits (forEach_set chunks 0 ∅) t c pos l ->
  forall i, CopyRef i ∈ l -> 0 <= i < Z.of_nat (length chunks).
Proof.
  intros Hemits i Hin.
  destruct (emits_CopyRef_match _ _ _ _ _ Hemits i Hin) as (p & e & Hm & <-).
  apply match_at_Some in Hm as [_ [Hlook _]].
  apply checksumMap_lookup in Hlook as (j & chunk & (Hj & _) & ->).
  apply lookup_lt_Some in Hj. simpl. lia.
Qed.

(** C9.  Every [CopyRef] index in the output of [generateInstructions] is
    a position of the chunk table of the original, so
    [rebuildTargetFromOriginal] on this output, the same original and the
    same chunk size returns a buffer and does not throw. *)
Theorem copyref_in_range (fuel : nat) (originalData targetData : Buffer) (C : Z) :
  0 < C ->
  (length originalData < fuel)%nat -> (length targetData < fuel)%nat ->
  exists chunks out,
    divideToChunks fuel originalData C = Some chunks /\
    generateInstructions fuel originalData targetData C = Some out /\
    (forall i, CopyRef i ∈ out -> 0 <= i < Z.of_nat (length chunks)) /\
    exists rebuilt,
      rebuildTargetFromOriginal fuel originalData out C = Some (Returned rebuilt).
Proof.
  intros HC Ho Ht.
  destruct (generateInstructions_emits fuel originalData targetData C HC Ho Ht)
    as (out & Hout & Hemits).
  exists (chunks_of originalData C), out.
  split; [by apply divideToChunks_returns |]. split; [done |].
  pose proof (emits_in_range _ _ _ _ _ Hemits) as Hrange.
  split; [done |].
  unfold rebuildTargetFromOriginal. rewrite divideToChunks_returns by done.
  destruct (Buffer_concat_in_range _ _ Hrange) as [rebuilt ->]. by exists rebuilt.
Qed.

Lemma copyref_in_range_witness :
  exists chunks out,
    divideToChunks 12 (str "1234567890") 3 = Some chunks /\
    generateInstructions 12 (str "1234567890") (str "12X34567890") 3 = Some out /\
    (forall i, CopyRef i ∈ out -> 0 <= i < Z.of_nat (length chunks)) /\
    exists rebuilt,
      rebuildTargetFromOriginal 12 (str "1234567890") out 3 = Some (Returned rebuilt).
Proof.
  apply (copyref_in_range 12 (str "1234567890") (str "12X34567890") 3);
    [lia | simpl; lia | simpl; lia].
Defined.

(** C10.  Every [Literal] in the output of [generateInstructions] holds at
    least one byte. *)
Theorem literal_nonempty (fuel : nat) (originalData targetData : Buffer) (C : Z) :
  0 < C ->
  (length originalData < fuel)%nat -> (length targetData < fuel)%nat ->
  exists out,
    generateInstructions fuel originalData targetData C = Some out /\
    forall bytes, Literal bytes ∈ out -> bytes <> [].
Proof.
  intros HC Ho Ht.
  destruct (generateInstructions_emits fuel originalData targetData C HC Ho Ht)
    as (out & Hout & Hemits).
  exists out. split; [done |]. intros bytes Hin ->.
  by apply (emits_Literal_nonempty _ _ _ _ _ Hemits) in Hin.
Qed.

Lemma literal_nonempty_witness :
  exists out,
    generateInstructions 12 (str "1234567890") (str "12X34567890") 3 = Some out /\
    forall bytes, Literal bytes ∈ out -> bytes <> [].
Proof.
  apply (literal_nonempty 12 (str "1234567890") (str "12X34567890") 3);
    [lia | simpl; lia | simpl; lia].
Defined.

Lemma stands_for_contribution (originalChunks : list Buffer)
    (instructions : list Instruction) :
  (forall i, CopyRef i ∈ instructions -> 0 <= i < Z.of_nat (length originalChunks)) ->
  Forall2 (stands_for originalChunks) instructions
    (map (contribution originalChunks) instructions).
Proof.
  induction instructions as [| instruction rest IH]; intros Hrange; [constructor |].
  simpl. constructor.
  - destruct instruction as [i | bytes]; [| done].
    destruct (array_get_Some originalChunks i) as [chunk Hchunk].
    { apply Hrange. left. }
    simpl. rewrite Hchunk. simpl. unfold array_get in Hchunk.
    destruct (Z.ltb_spec i 0); [done |]. split; [lia | done].
  - apply IH. intros i Hin. apply Hrange. by right.
Qed.

(** C5.  On a positive chunk size, [rebuildTargetFromOriginal] throws when
    the instructions hold a [CopyRef] whose index is at least the number of
    chunks of the original (it neither reads past the table nor puts an
    empty buffer in its place); when every [CopyRef] index is a position of
    the chunk table, it returns the referenced chunks and the literal runs
    concatenated in instruction order. *)
Theorem rebuild_copyref_range (fuel : nat) (originalData : Buffer)
    (instructions : list Instruction) (C : Z) :
  0 < C -> (length originalData < fuel)%nat ->
  exists originalChunks,
    divideToChunks fuel originalData C = Some originalChunks /\
    ((exists i, CopyRef i ∈ instructions /\ Z.of_nat (length originalChunks) <= i) ->
     rebuildTargetFromOriginal fuel originalData instructions C = Some Thrown) /\
    ((forall i, CopyRef i ∈ instructions ->
                0 <= i < Z.of_nat (length originalChunks)) ->
     exists pieces,
       Forall2 (stands_for originalChunks) instructions pieces /\
       rebuildTargetFromOriginal fuel originalData instructions C =
         Some (Returned (concat pieces))).
Proof.
  intros HC Ho. exists (chunks_of originalData C).
  split; [by apply divideToChunks_returns |].
  unfold rebuildTargetFromOriginal. rewrite divideToChunks_returns by done.
  split.
  - intros (i & Hin & Hi). f_equal. apply Buffer_concat_Thrown.
    apply list_elem_of_fmap. exists (CopyRef i). split; [| done].
    simpl. by rewrite array_get_None.
  - intros Hrange.
    exists (map (contribution (chunks_of originalData C)) instructions).
    split; [by apply stands_for_contribution |].
    by rewrite Buffer_concat_Returned.
Qed.

Lemma rebuild_copyref_range_witness :
  rebuildTargetFromOriginal 11 (str "1234567890")
    [CopyRef 0; Literal (str "ab"); CopyRef 4] 3 = Some Thrown /\
  exists pieces,
    Forall2 (stands_for [str "123"; str "456"; str "789"; str "0"])
      [CopyRef 0; Literal (str "ab"); CopyRef 3] pieces /\
    rebuildTargetFromOriginal 11 (str "1234567890")
      [CopyRef 0; Literal (str "ab"); CopyRef 3] 3 = Some (Returned (concat pieces)).
Proof.
  split.
  - destruct (rebuild_copyref_range 11 (str "1234567890")
                [CopyRef 0; Literal (str "ab"); CopyRef 4] 3)
      as (chunks & Hchunks & Hthrow & _); [lia | simpl; lia |].
    apply Hthrow. exists 4. split; [set_solver |].
    injection Hchunks as <-. simpl. lia.
  - destruct (rebuild_copyref_range 11 (str "1234567890")
                [CopyRef 0; Literal (str "ab"); CopyRef 3] 3)
      as (chunks & Hchunks & _ & Hret); [lia | simpl; lia |].
    injection Hchunks as <-. apply Hret.
    intros i Hin. simpl. set_unfold in Hin.
    destruct Hin as [[= ->] | [[=] | [[= ->] | []]]]; lia.
Defined.

(** The scanning loops against the scan of the specification. *)

Lemma flush_literal_of (differingBuffer : list Buffer)
    (instructions : list Instruction) :
  Forall (fun b => b <> []) differingBuffer ->
  flush differingBuffer instructions =
    instructions ++ literal_of (concat differingBuffer).
Proof.
  intros Hne. destruct differingBuffer as [| d rest].
  - by rewrite flush_nil, app_nil_r.
  - rewrite flush_nonempty by done. f_equal.
    apply Forall_cons in Hne as [Hd _]. by destruct d.
Qed.

Lemma subarray_one_byte (t : Buffer) (pos : Z) :
  0 <= pos < blen t -> subarray t pos (pos + 1) <> [].
Proof.
  intros Hpos Hnil. apply (f_equal blen) in Hnil.
  rewrite blen_subarray in Hnil by lia. change (blen []) with 0 in Hnil. lia.
Qed.

(** Past the last position at which a window fits, [generateInstructions]
    consumes the bytes that are left and puts them out with those it holds. *)
Lemma generateInstructions_loop_past (m : gmap Z ChecksumEntry) (t : Buffer) (c : Z) :
  forall (fuel : nat) (pos : Z) (differingBuffer : list Buffer)
         (instructions : list Instruction),
    0 <= pos <= blen t -> blen t - c < pos ->
    blen t - pos < Z.of_nat fuel ->
    Forall (fun b => b <> []) differingBuffer ->
    generateInstructions_loop fuel m t c pos differingBuffer instructions =
      Some (instructions
            ++ literal_of (concat differingBuffer ++ subarray t pos (blen t))).
Proof.
  induction fuel as [| fuel IH]; intros pos diff instrs Hpos Hpast Hfuel Hne; [lia |].
  cbn [generateInstructions_loop].
  destruct (Z.ltb_spec pos (blen t)) as [Hlt | Hge].
  - destruct (Z.leb_spec pos (blen t - c)); [lia |].
    rewrite IH; [| lia | lia | lia |].
    + rewrite concat_app. cbn [concat]. rewrite app_nil_r, <- app_assoc.
      by rewrite subarray_app by lia.
    + apply Forall_app. split; [done |].
      constructor; [apply subarray_one_byte; lia | constructor].
  - rewrite subarray_empty by lia. rewrite app_nil_r.
    by rewrite flush_literal_of.
Qed.

Lemma scanning_loops (m : gmap Z ChecksumEntry) (t : Buffer) (c : Z) :
  0 < c ->
  forall (fuel : nat) (pos : Z) (differingBuffer : list Buffer)
         (instructions : list Instruction) (differingChunks : list Buffer),
    0 <= pos <= blen t ->
    blen t - pos < Z.of_nat fuel ->
    Forall (fun b => b <> []) differingBuffer ->
    exists (trace : list scan_event) (stop : Z),
      scan m t c pos trace stop /\
      findDifferingChunks_loop fuel m t c pos (subarray t pos (pos + c))
        differingChunks =
        Some (differingChunks ++ missed_windows t c trace) /\
      generateInstructions_loop fuel m t c pos differingBuffer instructions =
        Some (instructions
              ++ instructions_of t (concat differingBuffer) trace stop).
Proof.
  intros Hc. induction fuel as [| fuel IH];
    intros pos diff instrs dc Hpos Hfuel Hne; [lia |].
  destruct (Z_le_gt_dec pos (blen t - c)) as [Hfit | Hpast].
  - cbn [findDifferingChunks_loop generateInstructions_loop].
    destruct (Z.leb_spec pos (blen t - c)); [| lia].
    destruct (Z.ltb_spec pos (blen t)); [| lia].
    destruct (probe m (subarray t pos (pos + c))) as [e |] eqn:Hprobe.
    + apply probe_Some in Hprobe as [Hlook Hstrong].
      destruct (IH (pos + c) [] (flush diff instrs ++ [CopyRef (index e)]) dc)
        as (trace & stop & Hscan & Hfind & Hgen); [lia | lia | constructor |].
      exists (Matched pos (index e) :: trace), stop.
      split; [by apply scan_match |]. split; [done |].
      rewrite Hgen. cbn [instructions_of concat].
      rewrite flush_literal_of by done. by rewrite <- !app_assoc.
    + pose proof Hprobe as Hnone. rewrite probe_None in Hnone.
      destruct (IH (pos + 1) (diff ++ [subarray t pos (pos + 1)]) instrs
                  (dc ++ [subarray (subarray t pos (pos + c)) 0 c]))
        as (trace & stop & Hscan & Hfind & Hgen); [lia | lia | |].
      { apply Forall_app. split; [done |].
        constructor; [apply subarray_one_byte; lia | constructor]. }
      exists (Missed pos :: trace), stop. split; [| split].
      * apply scan_miss; [done | | done].
        intros e Hlook Hstrong. apply Hnone. by exists e.
      * rewrite Hfind. cbn [missed_windows].
        rewrite (subarray_all (subarray t pos (pos + c)))
          by (rewrite blen_subarray by lia; lia).
        by rewrite <- app_assoc.
      * rewrite Hgen. cbn [instructions_of].
        rewrite concat_app. cbn [concat]. by rewrite app_nil_r.
  - exists [], pos. split; [apply scan_stop; lia |]. split.
    + cbn [findDifferingChunks_loop missed_windows].
      destruct (Z.leb_spec pos (blen t - c)); [lia |]. by rewrite app_nil_r.
    + cbn [instructions_of].
      apply generateInstructions_loop_past; [lia | lia | lia | done].
Qed.

(** C6.  Both [findDifferingChunks] and [generateInstructions] follow the
    scan of the specification on the index built from the chunks of the
    original: at a cursor position where a whole window fits, the window
    is a match exactly when its weak checksum is a key of the index and the
    entry under it has the strong checksum of the window; after a match the
    cursor is [C] further, after a miss it is 1 further.  The result of
    [findDifferingChunks] is the windows of the misses of this scan; the
    result of [generateInstructions] has the index of each match and, in
    between, the bytes consumed one per miss. *)
Theorem scan_rule (fuel : nat) (originalData targetData : Buffer) (C : Z) :
  0 < C ->
  (length originalData < fuel)%nat -> (length targetData < fuel)%nat ->
  exists (originalChunks : list Buffer) (trace : list scan_event) (stop : Z),
    divideToChunks fuel originalData C = Some originalChunks /\
    scan (forEach_set originalChunks 0 ∅) targetData C 0 trace stop /\
    findDifferingChunks fuel originalData targetData C =
      Some (missed_windows targetData C trace) /\
    generateInstructions fuel originalData targetData C =
      Some (instructions_of targetData [] trace stop).
Proof.
  intros HC Ho Ht.
  destruct (scanning_loops (forEach_set (chunks_of originalData C) 0 ∅)
              targetData C HC fuel 0 [] [] [])
    as (trace & stop & Hscan & Hfind & Hgen);
    [pose proof (blen_nonneg targetData); lia | unfold blen; lia | constructor |].
  exists (chunks_of originalData C), trace, stop.
  split; [by apply divideToChunks_returns |]. split; [done |].
  unfold findDifferingChunks, generateInstructions.
  rewrite divideToChunks_returns by done. by split.
Qed.

(** The scan is determined by the index and the target. *)
Lemma scan_functional (m : gmap Z ChecksumEntry) (t : Buffer) (c pos : Z)
    (trace1 trace2 : list scan_event) (stop1 stop2 : Z) :
  scan m t c pos trace1 stop1 -> scan m t c pos trace2 stop2 ->
  trace1 = trace2 /\ stop1 = stop2.
Proof.
  intros H1. revert trace2 stop2.
  induction H1 as [pos Hpast | pos e rest stop Hfit Hlook Hstrong Hrest IH
                  | pos rest stop Hfit Hmiss Hrest IH];
    intros trace2 stop2 H2.
  - inversion H2; subst; [done | lia | lia].
  - inversion H2 as [| pos' e' rest' stop' Hfit' Hlook' Hstrong' Hrest'
                    | pos' rest' stop' Hfit' Hmiss' Hrest']; subst.
    + lia.
    + rewrite Hlook in Hlook'. injection Hlook' as <-.
      destruct (IH _ _ Hrest') as [-> ->]. done.
    + exfalso. by eapply Hmiss'.
  - inversion H2 as [| pos' e' rest' stop' Hfit' Hlook' Hstrong' Hrest'
                    | pos' rest' stop' Hfit' Hmiss' Hrest']; subst.
    + lia.
    + exfalso. by eapply Hmiss.
    + destruct (IH _ _ Hrest') as [-> ->]. done.
Qed.

(** On the original "abcd" and the target "abXcd" with chunks of 2 bytes
    the scan is a match at 0, a miss at 2 and a match at 3. *)
Lemma scan_abXcd :
  scan (forEach_set [str "ab"; str "cd"] 0 ∅) (str "abXcd") 2 0
    [Matched 0 0; Missed 2; Matched 3 1] 5.
Proof.
  apply (scan_match _ _ _ 0 (entry_of 0 (str "ab")));
    [vm_compute; discriminate | vm_compute; reflexivity | vm_compute; reflexivity |].
  change (0 + 2) with 2. apply scan_miss.
  - vm_compute. discriminate.
  - intros e Hlook. vm_compute in Hlook. discriminate Hlook.
  - change (2 + 1) with 3.
    apply (scan_match _ _ _ 3 (entry_of 1 (str "cd")));
      [vm_compute; discriminate | vm_compute; reflexivity | vm_compute; reflexivity |].
    apply scan_stop. vm_compute. reflexivity.
Qed.

Lemma scan_rule_witness :
  scan (forEach_set [str "ab"; str "cd"] 0 ∅) (str "abXcd") 2 0
    [Matched 0 0; Missed 2; Matched 3 1] 5 /\
  findDifferingChunks 6 (str "abcd") (str "abXcd") 2 =
    Some (missed_windows (str "abXcd") 2 [Matched 0 0; Missed 2; Matched 3 1]) /\
  generateInstructions 6 (str "abcd") (str "abXcd") 2 =
    Some (instructions_of (str "abXcd") [] [Matched 0 0; Missed 2; Matched 3 1] 5).
Proof.
  destruct (scan_rule 6 (str "abcd") (str "abXcd") 2)
    as (chunks & trace & stop & Hchunks & Hscan & Hfind & Hgen);
    [lia | simpl; lia | simpl; lia |].
  vm_compute in Hchunks. injection Hchunks as <-.
  pose proof (scan_functional _ _ _ _ _ _ _ _ Hscan scan_abXcd) as [Ht Hs].
  rewrite Ht, Hs in *.
  exact (conj scan_abXcd (conj Hfind Hgen)).
Defined.

(** ** Identity diff *)

Lemma weak_distinct_separates (chunks : list Buffer) :
  weak_distinct chunks -> weak_separates chunks.
Proof.
  intros Hd i j ci cj Hi Hj Hw.
  assert (i = j) as -> by (by eapply Hd). congruence.
Qed.

Lemma full_chunk_iff (len c : Z) (k : nat) :
  0 < c -> 0 <= len ->
  (k < Z.to_nat (len / c))%nat <-> (Z.of_nat k + 1) * c <= len.
Proof.
  intros Hc Hl. assert (0 <= len / c) by (apply Z.div_pos; lia).
  pose proof (Z.mul_div_le len c Hc). pose proof (Z.mul_succ_div_gt len c Hc).
  split; intros H'; [nia |].
  assert (Z.of_nat k + 1 <= len / c); [| lia].
  apply Z.div_le_lower_bound; lia.
Qed.

Lemma forEach_set_keeps (chunks : list Buffer) (w : Z) :
  forall (i : Z) (m : gmap Z ChecksumEntry),
    is_Some (m !! w) -> is_Some (forEach_set chunks i m !! w).
Proof.
  induction chunks as [| c0 rest IH]; intros i m Hm; [done |].
  cbn [forEach_set]. apply IH. rewrite lookup_insert. by case_decide.
Qed.

Lemma forEach_set_has (chunks : list Buffer) (chunk : Buffer) :
  chunk ∈ chunks ->
  forall (i : Z) (m : gmap Z ChecksumEntry),
    is_Some (forEach_set chunks i m !! calculateWeakBlockChecksum chunk).
Proof.
  induction 1 as [c0 rest | c0 c1 rest Hin IH]; intros i m; cbn [forEach_set].
  - apply forEach_set_keeps. by rewrite lookup_insert_eq.
  - apply IH.
Qed.

Section Identity.

Variables (B : Buffer) (c : Z).
Hypothesis Hc : 0 < c.
Hypothesis Hsep : weak_separates (chunks_of B c).

Let m : gmap Z ChecksumEntry := forEach_set (chunks_of B c) 0 ∅.
Let nfull : nat := Z.to_nat (blen B / c).

(** At the start of a whole chunk the window is this chunk and it
    matches; the entry found is that of the last chunk with this weak
    checksum. *)
Lemma aligned_match (k : nat) :
  (k < nfull)%nat ->
  exists (j : nat) (cj : Buffer),
    last_with_weak (chunks_of B c) (calculateWeakBlockChecksum (chunk_at B c k)) j cj /\
    match_at m B c (Z.of_nat k * c) = Some (entry_of (Z.of_nat j) cj).
Proof.
  intros Hk. apply full_chunk_iff in Hk; [| done | apply blen_nonneg].
  assert (chunks_of B c !! k = Some (chunk_at B c k)) as Hck.
  { apply chunks_of_lookup, chunk_count_lt; [done | lia]. }
  destruct (forEach_set_has (chunks_of B c) (chunk_at B c k)
              ltac:(by eapply list_elem_of_lookup_2) 0 ∅) as [e He].
  destruct (checksumMap_lookup _ _ _ He) as (j & cj & Hlast & ->).
  exists j, cj. split; [done |].
  apply match_at_Some. split; [lia |].
  change (subarray B (Z.of_nat k * c) (Z.of_nat k * c + c)) with (chunk_at B c k).
  split; [done |]. simpl.
  destruct Hlast as (Hj & Hw & _). by eapply Hsep.
Qed.

Lemma trailing_emits : emits m B c (Z.of_nat nfull * c) (trailing B c).
Proof.
  pose proof (blen_nonneg B) as Hl.
  pose proof (Z.div_mod (blen B) c ltac:(lia)) as Hdm.
  pose proof (Z.mod_pos_bound (blen B) c Hc) as Hm.
  assert (0 <= blen B / c) as Hq by (apply Z.div_pos; lia).
  assert (Z.of_nat nfull * c = blen B - blen B mod c) as Hn
    by (unfold nfull; rewrite Z2Nat.id by done; lia).
  unfold trailing. destruct (Z.eqb_spec (blen B mod c) 0) as [Hz | Hnz].
  - apply emits_end. lia.
  - rewrite Hn.
    replace (subarray B (blen B - blen B mod c) (blen B))
      with (subarray B (blen B - blen B mod c)
              (blen B - blen B mod c + blen B mod c))
      by (f_equal; lia).
    apply emits_literal.
    + lia.
    + lia.
    + lia.
    + intros p Hp. unfold match_at.
      destruct (Z.leb_spec p (blen B - c)); [lia | done].
    + intros (b & r & [=]).
    + apply emits_end. lia.
Qed.

Lemma identity_emits (n : nat) :
  (n <= nfull)%nat ->
  exists idxs : list Z,
    length idxs = n /\
    emits m B c (Z.of_nat (nfull - n) * c) (map CopyRef idxs ++ trailing B c) /\
    forall (k' : nat) (i : Z),
      idxs !! k' = Some i ->
      exists (j : nat) (cj : Buffer),
        last_with_weak (chunks_of B c)
          (calculateWeakBlockChecksum (chunk_at B c (nfull - n + k'))) j cj /\
        i = Z.of_nat j.
Proof.
  induction n as [| n IH]; intros Hn.
  - exists []. split; [done |]. split.
    + rewrite Nat.sub_0_r. apply trailing_emits.
    + intros k' i Hk'. by rewrite lookup_nil in Hk'.
  - destruct IH as (idxs & Hlen & Hemits & Hidx); [lia |].
    destruct (aligned_match (nfull - S n)) as (j & cj & Hlast & Hm); [lia |].
    exists (Z.of_nat j :: idxs). split; [simpl; lia |]. split.
    + cbn [map app]. change (Z.of_nat j) with (index (entry_of (Z.of_nat j) cj)).
      apply emits_copy.
      * apply match_at_Some in Hm as [Hfit _]. nia.
      * done.
      * replace (nfull - n)%nat with (S (nfull - S n)) in Hemits by lia.
        replace (Z.of_nat (nfull - S n) * c + c)
          with (Z.of_nat (S (nfull - S n)) * c) by (clear; lia).
        done.
    + intros [| k'] i Hk'.
      * injection Hk' as <-. exists j, cj. by rewrite Nat.add_0_r.
      * replace (nfull - S n + S k')%nat with (nfull - n + k')%nat by lia.
        by apply Hidx.
Qed.

Lemma findDifferingChunks_loop_identity (fuel k : nat) (differingChunks : list Buffer) :
  (k <= nfull)%nat -> (nfull - k < fuel)%nat ->
  findDifferingChunks_loop fuel m B c (Z.of_nat k * c)
    (subarray B (Z.of_nat k * c) (Z.of_nat k * c + c)) differingChunks =
  Some differingChunks.
Proof.
  revert k. induction fuel as [| fuel IH]; intros k Hk Hfuel; [lia |].
  cbn [findDifferingChunks_loop].
  destruct (Z.leb_spec (Z.of_nat k * c) (blen B - c)) as [Hfit | Hnofit].
  - assert (k < nfull)%nat as Hlt
      by (apply full_chunk_iff; [done | apply blen_nonneg | lia]).
    destruct (aligned_match k Hlt) as (j & cj & _ & Hm).
    unfold match_at in Hm.
    destruct (Z.leb_spec (Z.of_nat k * c) (blen B - c)); [| lia].
    rewrite Hm.
    replace (Z.of_nat k * c + c) with (Z.of_nat (S k) * c) by lia.
    apply IH; lia.
  - done.
Qed.

End Identity.

(** C2, as the code has it.  Take a buffer B, a chunk size C > 0, and
    suppose that chunks of B with the same weak checksum have the same
    strong checksum.  Then [findDifferingChunks] on (B, B) returns no
    window, and [generateInstructions] on (B, B) returns one [CopyRef] for
    each whole chunk, in order, followed by one [Literal] with the last
    L mod C bytes when C does not divide L.  The index in the [CopyRef] of
    chunk k is the position of the last chunk that has the weak checksum of
    chunk k; it is k when the weak checksums are pairwise distinct. *)
Theorem identity_diff (fuel : nat) (B : Buffer) (C : Z) :
  0 < C -> (length B < fuel)%nat ->
  exists chunks,
    divideToChunks fuel B C = Some chunks /\
    (weak_separates chunks ->
     findDifferingChunks fuel B B C = Some [] /\
     exists idxs : list Z,
       generateInstructions fuel B B C = Some (map CopyRef idxs ++ trailing B C) /\
       Z.of_nat (length idxs) = blen B / C /\
       (forall (k : nat) (i : Z),
           idxs !! k = Some i ->
           exists (ck : Buffer) (j : nat) (cj : Buffer),
             chunks !! k = Some ck /\
             last_with_weak chunks (calculateWeakBlockChecksum ck) j cj /\
             i = Z.of_nat j) /\
       (weak_distinct chunks -> idxs = map Z.of_nat (seq 0 (length idxs)))).
Proof.
  intros HC Hfuel. exists (chunks_of B C).
  split; [by apply divideToChunks_returns |]. intros Hsep.
  pose proof (blen_nonneg B) as Hl.
  assert (0 <= blen B / C) as Hq by (apply Z.div_pos; lia).
  assert (blen B / C <= blen B) as Hle by (apply Z.div_le_upper_bound; nia).
  split.
  - unfold findDifferingChunks. rewrite divideToChunks_returns by done.
    change (subarray B 0 (0 + C))
      with (subarray B (Z.of_nat 0 * C) (Z.of_nat 0 * C + C)).
    change 0 with (Z.of_nat 0 * C) at 2.
    apply findDifferingChunks_loop_identity; [done | done | lia |].
    unfold blen in *. lia.
  - destruct (generateInstructions_emits fuel B B C HC Hfuel Hfuel)
      as (out & Hout & Hemits).
    destruct (identity_emits B C HC Hsep (Z.to_nat (blen B / C)) ltac:(lia))
      as (idxs & Hlen & Hid & Hidx).
    rewrite Nat.sub_diag in Hid, Hidx.
    assert (out = map CopyRef idxs ++ trailing B C) as ->
      by (by eapply emits_functional).
    assert (forall (k : nat) (i : Z),
               idxs !! k = Some i ->
               exists (ck : Buffer) (j : nat) (cj : Buffer),
                 chunks_of B C !! k = Some ck /\
                 last_with_weak (chunks_of B C) (calculateWeakBlockChecksum ck) j cj /\
                 i = Z.of_nat j) as Hchar.
    { intros k i Hk. destruct (Hidx k i Hk) as (j & cj & Hlast & ->).
      exists (chunk_at B C k), j, cj. split; [| done].
      apply chunks_of_lookup, chunk_count_lt; [done |].
      apply lookup_lt_Some in Hk.
      assert (k < Z.to_nat (blen B / C))%nat as Hk' by lia.
      apply full_chunk_iff in Hk'; lia. }
    exists idxs. split; [done |]. split; [lia |]. split; [done |].
    intros Hd. apply list_eq. intros k.
    rewrite list_lookup_fmap.
    destruct (idxs !! k) as [i |] eqn:Hk.
    + rewrite lookup_seq_lt by (by eapply lookup_lt_Some). simpl.
      destruct (Hchar k i Hk) as (ck & j & cj & Hck & (Hj & Hw & _) & ->).
      do 2 f_equal. by eapply Hd.
    + by rewrite lookup_seq_ge by (by apply lookup_ge_None).
Qed.

Lemma identity_diff_witness :
  findDifferingChunks 11 (str "1234567890") (str "1234567890") 3 = Some [] /\
  generateInstructions 11 (str "1234567890") (str "1234567890") 3 =
    Some [CopyRef 0; CopyRef 1; CopyRef 2; Literal (str "0")].
Proof.
  destruct (identity_diff 11 (str "1234567890") 3) as (chunks & Hchunks & H);
    [lia | simpl; lia |].
  vm_compute in Hchunks. injection Hchunks as <-.
  assert (weak_distinct [str "123"; str "456"; str "789"; str "0"]) as Hd.
  { intros i j ci cj Hi Hj Hw.
    destruct i as [| [| [| [| i]]]]; try done;
      destruct j as [| [| [| [| j]]]]; try done;
      injection Hi as <-; injection Hj as <-;
      vm_compute in Hw; done. }
  destruct (H (weak_distinct_separates _ Hd))
    as (Hfind & idxs & Hgen & Hlen & _ & Hseq).
  split; [done |]. rewrite Hgen, (Hseq Hd).
  change (blen (str "1234567890") / 3) with 3 in Hlen.
  replace (length idxs) with 3%nat by lia.
  reflexivity.
Defined.

(** C2 as stated fails on three counts.  A last chunk shorter than the
    chunk size never fills a window and comes out as a [Literal]; equal
    chunks are all referred to by the index of the last of them; and a
    chunk whose weak checksum is that of a later, different chunk does not
    match itself, so that [findDifferingChunks] reports windows for two
    equal buffers. *)
Lemma identity_diff_counterexample :
  generateInstructions 11 (str "1234567890") (str "1234567890") 3 =
    Some [CopyRef 0; CopyRef 1; CopyRef 2; Literal (str "0")] /\
  generateInstructions 5 (str "aaaa") (str "aaaa") 1 =
    Some [CopyRef 3; CopyRef 3; CopyRef 3; CopyRef 3] /\
  findDifferingChunks 7 [x01; x00; x01; x00; x02; x00] [x01; x00; x01; x00; x02; x00] 3 =
    Some [[x01; x00; x01]; [x00; x01; x00]; [x01; x00; x02]].
Proof. repeat split; vm_compute; reflexivity. Qed.

(** ** Round trip *)

Lemma emits_contribution (chunks : list Buffer) (t : Buffer) (c pos : Z)
    (l : list Instruction) :
  0 < c -> collision_free chunks t c ->
  emits (forEach_set chunks 0 ∅) t c pos l ->
  concat (map (contribution chunks) l) = subarray t pos (blen t).
Proof.
  intros Hc Hfree.
  induction 1 as [pos Hend | pos e rest Hpos Hm Hrest IH
                 | pos k rest Hpos Hk Hfit Hno Hnl Hrest IH].
  - subst pos. simpl. rewrite subarray_empty; [done | apply blen_nonneg ..| lia].
  - apply match_at_Some in Hm as [Hfit [Hlook Hstrong]].
    apply checksumMap_lookup in Hlook as (j & chunk & (Hj & Hw & _) & ->).
    cbn [map concat contribution index entry_of]. rewrite IH.
    unfold array_get. destruct (Z.ltb_spec (Z.of_nat j) 0); [lia |].
    rewrite Nat2Z.id, Hj. cbn [default].
    rewrite (Hfree chunk pos).
    + apply subarray_app; lia.
    + by eapply list_elem_of_lookup_2.
    + lia.
    + done.
    + done.
  - cbn [map concat contribution]. rewrite IH. apply subarray_app; lia.
Qed.

(** C1, as the code has it.  For every original, target and chunk size
    C > 0 such that no chunk of the original shares both checksums with a
    different window of the target, [rebuildTargetFromOriginal] on the
    output of [generateInstructions] returns the target. *)
Theorem round_trip (fuel : nat) (originalData targetData : Buffer) (C : Z)
    (chunks : list Buffer) :
  0 < C ->
  (length originalData < fuel)%nat -> (length targetData < fuel)%nat ->
  divideToChunks fuel originalData C = Some chunks ->
  collision_free chunks targetData C ->
  exists instructions,
    generateInstructions fuel originalData targetData C = Some instructions /\
    rebuildTargetFromOriginal fuel originalData instructions C =
      Some (Returned targetData).
Proof.
  intros HC Ho Ht Hchunks Hfree.
  rewrite divideToChunks_returns in Hchunks by done. injection Hchunks as <-.
  destruct (generateInstructions_emits fuel originalData targetData C HC Ho Ht)
    as (out & Hout & Hemits).
  exists out. split; [done |].
  unfold rebuildTargetFromOriginal. rewrite divideToChunks_returns by done.
  rewrite Buffer_concat_Returned by (by eapply emits_in_range).
  rewrite (emits_contribution _ _ _ _ _ HC Hfree Hemits).
  by rewrite subarray_all.
Qed.

Lemma round_trip_witness :
  exists instructions,
    generateInstructions 6 (str "abcd") (str "abXcd") 2 = Some instructions /\
    rebuildTargetFromOriginal 6 (str "abcd") instructions 2 =
      Some (Returned (str "abXcd")).
Proof.
  apply (round_trip 6 (str "abcd") (str "abXcd") 2 [str "ab"; str "cd"]);
    [lia | simpl; lia | simpl; lia | reflexivity |].
  intros chunk pos Hin Hpos Hw _.
  change (blen (str "abXcd") - 2) with 3 in Hpos.
  assert (pos = 0 \/ pos = 1 \/ pos = 2 \/ pos = 3) as Hcases by lia.
  apply elem_of_cons in Hin as [-> | Hin];
    [| apply elem_of_cons in Hin as [-> | Hin];
       [| by apply not_elem_of_nil in Hin]];
    destruct Hcases as [-> | [-> | [-> | ->]]];
    first [reflexivity | vm_compute in Hw; discriminate Hw].
Defined.

(** ** Checksum collisions exist *)

(** The weak checksum is a signed 32-bit number. *)
Lemma calculateWeakBlockChecksum_range (buffer : Buffer) :
  - 2 ^ 31 <= calculateWeakBlockChecksum buffer < 2 ^ 31.
Proof.
  unfold calculateWeakBlockChecksum, adler32_buf.
  destruct (fold_left adler_step buffer (1, 0)) as [a b]. unfold to_int32.
  pose proof (Z.mod_pos_bound (Z.lor (Z.shiftl b 16) a + 2 ^ 31) (2 ^ 32)). lia.
Qed.

Lemma w32_range (x : Z) : 0 <= SHA1.w32 x < 2 ^ 32.
Proof. unfold SHA1.w32. apply Z.mod_pos_bound. lia. Qed.

Lemma block_ok (h : SHA1.hstate) (bs : list Z) : hstate_ok (SHA1.block h bs).
Proof.
  unfold SHA1.block.
  destruct (fold_left SHA1.round _ h) as [[[[a b] c] d] e].
  destruct h as [[[[h0 h1] h2] h3] h4]. unfold hstate_ok.
  repeat split; apply w32_range.
Qed.

Lemma blocks_ok (n : nat) :
  forall (h : SHA1.hstate) (bs : list Z),
    hstate_ok h -> hstate_ok (SHA1.blocks n h bs).
Proof.
  induction n as [| n IH]; intros h bs Hh; [done |].
  cbn [SHA1.blocks]. apply IH, block_ok.
Qed.

(** The digest has 160 bits. *)
Lemma digest_range (msg : Buffer) : 0 <= SHA1.digest msg < 2 ^ 160.
Proof.
  unfold SHA1.digest.
  pose proof (blocks_ok (length (SHA1.pad (map byte_val msg)) / 64) SHA1.init
                (SHA1.pad (map byte_val msg))) as Hok.
  destruct (SHA1.blocks _ SHA1.init _) as [[[[h0 h1] h2] h3] h4].
  unfold hstate_ok in Hok. rewrite !Z.shiftl_mul_pow2 by lia.
  destruct Hok as (? & ? & ? & ? & ?); [unfold SHA1.init; lia |]. lia.
Qed.

Lemma byte_val_of_Z (z : Z) : 0 <= z < 256 -> byte_val (byte_of_Z z) = z.
Proof.
  intros Hz. unfold byte_val, byte_of_Z.
  pose proof (Byte.to_of_N_option_map (Z.to_N z)) as H.
  destruct (Byte.of_N (Z.to_N z)) as [b |].
  - destruct (N.leb_spec (Z.to_N z) 255); simpl in *; [| done].
    injection H as ->. lia.
  - destruct (N.leb_spec (Z.to_N z) 255); simpl in *; [done | lia].
Qed.

Lemma length_le_bytes (n : nat) : forall x, length (le_bytes n x) = n.
Proof. induction n as [| n IH]; intros x; [done |]. simpl. by rewrite IH. Qed.

Lemma le_val_bytes (n : nat) :
  forall x, 0 <= x < 256 ^ Z.of_nat n -> le_val (le_bytes n x) = x.
Proof.
  induction n as [| n IH]; intros x Hx.
  - simpl in *. lia.
  - cbn [le_bytes le_val].
    pose proof (Z.mod_pos_bound x 256 ltac:(lia)) as Hm.
    pose proof (Z.div_mod x 256 ltac:(lia)) as Hdm.
    rewrite byte_val_of_Z by done. rewrite IH; [lia |].
    rewrite Nat2Z.inj_succ, Z.pow_succ_r in Hx by lia.
    split; [apply Z.div_pos; lia | apply Z.div_lt_upper_bound; lia].
Qed.

(** There are more buffers of 25 bytes (2^200) than pairs of a weak and a
    strong checksum (2^192): two different buffers of 25 bytes have the
    same weak checksum and the same strong checksum. *)
Lemma checksums_collide :
  exists x y : Buffer,
    length x = 25%nat /\ length y = 25%nat /\ x <> y /\
    calculateWeakBlockChecksum x = calculateWeakBlockChecksum y /\
    calculateStrongBlockChecksum x = calculateStrongBlockChecksum y.
Proof.
  assert (exists n1 n2 : nat, Z.of_nat n1 = 2 ^ 200 /\ Z.of_nat n2 = 2 ^ 192)
    as (n1 & n2 & Hn1 & Hn2).
  { exists (Z.to_nat (2 ^ 200)), (Z.to_nat (2 ^ 192)).
    split; apply Z2Nat.id, Z.pow_nonneg; lia. }
  set (g := fun x : Buffer =>
              (calculateWeakBlockChecksum x + 2 ^ 31) * 2 ^ 160 + SHA1.digest x).
  assert (forall x, 0 <= g x < 2 ^ 192) as Hg.
  { intros x. unfold g.
    pose proof (calculateWeakBlockChecksum_range x).
    pose proof (digest_range x). lia. }
  destruct (nat_pigeonhole (fun i => Z.to_nat (g (le_bytes 25 (Z.of_nat i)))) n1 n2)
    as (i1 & i2 & Hi & Heq).
  { lia. }
  { intros i Hi. specialize (Hg (le_bytes 25 (Z.of_nat i))). lia. }
  cbv beta in Heq.
  pose proof (Hg (le_bytes 25 (Z.of_nat i1))) as Hg1.
  pose proof (Hg (le_bytes 25 (Z.of_nat i2))) as Hg2.
  assert (g (le_bytes 25 (Z.of_nat i1)) = g (le_bytes 25 (Z.of_nat i2))) as Hgeq
    by lia.
  exists (le_bytes 25 (Z.of_nat i1)), (le_bytes 25 (Z.of_nat i2)).
  split; [apply length_le_bytes |]. split; [apply length_le_bytes |].
  assert (256 ^ Z.of_nat 25 = 2 ^ 200) as Hpow by reflexivity.
  split.
  - intros Hxy. apply (f_equal le_val) in Hxy.
    rewrite !le_val_bytes in Hxy by lia. lia.
  - unfold g in Hgeq.
    pose proof (calculateWeakBlockChecksum_range (le_bytes 25 (Z.of_nat i1))).
    pose proof (calculateWeakBlockChecksum_range (le_bytes 25 (Z.of_nat i2))).
    pose proof (digest_range (le_bytes 25 (Z.of_nat i1))).
    pose proof (digest_range (le_bytes 25 (Z.of_nat i2))).
    split; [lia |].
    unfold calculateStrongBlockChecksum, SHA1.hexdigest. f_equal. lia.
Qed.

Lemma chunks_of_one_chunk (x : Buffer) (c : Z) :
  0 < c -> blen x = c -> chunks_of x c = [x].
Proof.
  intros Hc Hx. unfold chunks_of, chunk_count. rewrite Hx.
  replace ((c + c - 1) / c) with 1
    by (apply (Z.div_unique (c + c - 1) c 1 (c - 1)); lia).
  change (Z.to_nat 1) with 1%nat. cbn [seq map]. unfold chunk_at.
  change (Z.of_nat 0 * c) with 0. by rewrite subarray_all by lia.
Qed.

(** C1 as stated fails: there are two different buffers of 25 bytes with
    the same weak and strong checksums; with one as the original, the other
    as the target and chunks of 25 bytes, the target is encoded as a
    reference to chunk 0 and rebuilt as the original. *)
Lemma round_trip_counterexample :
  exists originalData targetData : Buffer,
    generateInstructions 26 originalData targetData 25 = Some [CopyRef 0] /\
    rebuildTargetFromOriginal 26 originalData [CopyRef 0] 25 =
      Some (Returned originalData) /\
    originalData <> targetData.
Proof.
  destruct checksums_collide as (x & y & Hx & Hy & Hne & Hweak & Hstrong).
  assert (blen x = 25) as Hbx by (unfold blen; lia).
  assert (blen y = 25) as Hby by (unfold blen; lia).
  assert (chunks_of x 25 = [x]) as Hchunks by (by apply chunks_of_one_chunk).
  exists x, y. split; [| split; [| done]].
  - destruct (generateInstructions_emits 26 x y 25) as (out & Hout & Hemits);
      [lia | lia | lia |].
    rewrite Hout. f_equal.
    eapply emits_functional; [| exact Hemits |]; [lia |].
    rewrite Hchunks. cbn [forEach_set].
    change (CopyRef 0) with (CopyRef (index (entry_of 0 x))).
    apply emits_copy.
    + lia.
    + apply match_at_Some. split; [lia |].
      change (0 + 25) with 25. rewrite subarray_all by lia.
      split; [| done]. rewrite <- Hweak. apply lookup_insert_eq.
    + apply emits_end. lia.
  - unfold rebuildTargetFromOriginal.
    rewrite divideToChunks_returns by lia. rewrite Hchunks.
    cbn [map rebuilt_chunk Buffer_concat]. unfold array_get.
    change ([x] !! Z.to_nat 0) with (Some x). cbn. by rewrite app_nil_r.
Qed.

(** ** Chunk sizes that are not positive *)

Lemma divideToChunks_empty (fuel : nat) (c : Z) :
  (0 < fuel)%nat -> divideToChunks fuel [] c = Some [].
Proof. intros Hfuel. destruct fuel; [lia | done]. Qed.

(** On a non-empty buffer and a chunk size [c <= 0] the loop variable never
    reaches the length of the buffer. *)
Lemma divideToChunks_loop_never_exits (file : Buffer) (c : Z) :
  c <= 0 -> file <> [] ->
  forall (fuel : nat) (i : Z) (chunks : list Buffer),
    i <= 0 -> divideToChunks_loop fuel file c i chunks = None.
Proof.
  intros Hc Hfile. induction fuel as [| fuel IH]; intros i chunks Hi; [done |].
  cbn [divideToChunks_loop].
  assert (0 < blen file) by (destruct file; [done | unfold blen; simpl; lia]).
  destruct (Z.ltb_spec i (blen file)); [| lia].
  apply IH. lia.
Qed.

Lemma divideToChunks_never_exits (fuel : nat) (file : Buffer) (c : Z) :
  c <= 0 -> file <> [] -> divideToChunks fuel file c = None.
Proof.
  intros Hc Hfile. by apply divideToChunks_loop_never_exits.
Qed.

Lemma probe_empty (windowBuffer : Buffer) : probe ∅ windowBuffer = None.
Proof. unfold probe. by rewrite lookup_empty. Qed.

(** With an empty index every position is a miss, whatever the chunk size. *)
Lemma generateInstructions_loop_empty_index (t : Buffer) (c : Z) :
  forall (fuel : nat) (start pos : Z) (differingBuffer : list Buffer)
         (instructions : list Instruction),
    0 <= start <= pos -> pos <= blen t ->
    blen t - pos < Z.of_nat fuel ->
    Z.of_nat (length differingBuffer) = pos - start ->
    concat differingBuffer = subarray t start pos ->
    generateInstructions_loop fuel ∅ t c pos differingBuffer instructions =
      Some (if start <? blen t
            then instructions ++ [Literal (subarray t start (blen t))]
            else instructions).
Proof.
  induction fuel as [| fuel IH];
    intros start pos diff instrs Hstart Hpos Hfuel Hlen Hbytes; [lia |].
  cbn [generateInstructions_loop].
  destruct (Z.ltb_spec pos (blen t)) as [Hlt | Hge].
  - replace (if pos <=? blen t - c
             then probe ∅ (subarray t pos (pos + c)) else None)
      with (@None ChecksumEntry)
      by (destruct (pos <=? blen t - c); [by rewrite probe_empty | done]).
    apply IH; [lia | lia | lia | |].
    + rewrite length_app. simpl. lia.
    + rewrite concat_app, Hbytes. simpl. rewrite app_nil_r.
      apply subarray_app; lia.
  - assert (pos = blen t) as -> by lia. f_equal.
    destruct (Z.ltb_spec start (blen t)).
    + rewrite flush_nonempty by (intros ->; simpl in Hlen; lia).
      by rewrite Hbytes.
    + destruct diff; [done | simpl in Hlen; lia].
Qed.

Lemma findDifferingChunks_loop_empty_index (t : Buffer) (c : Z) :
  forall (fuel : nat) (pos : Z) (windowBuffer : Buffer)
         (differingChunks : list Buffer),
    (0 < fuel)%nat -> blen t - c - pos + 1 < Z.of_nat fuel ->
    exists windows,
      findDifferingChunks_loop fuel ∅ t c pos windowBuffer differingChunks =
        Some windows.
Proof.
  induction fuel as [| fuel IH]; intros pos w dc Hpos Hfuel; [lia |].
  cbn [findDifferingChunks_loop].
  destruct (Z.leb_spec pos (blen t - c)); [| by eexists].
  rewrite probe_empty. apply IH; lia.
Qed.

(** C4, as the code has it.  No operation checks [chunkSizeBytes].  With
    [chunkSizeBytes <= 0], an operation whose buffer to split (the buffer
    of [divideToChunks], the original of the other three) is empty returns
    as it does for any chunk size; when this buffer is not empty, the loop
    of [divideToChunks] never exits and no operation returns. *)
Theorem no_chunk_size_check (fuel : nat) (chunkSizeBytes : Z) :
  chunkSizeBytes <= 0 -> (0 < fuel)%nat ->
  (divideToChunks fuel [] chunkSizeBytes = Some [] /\
   (forall targetData, (length targetData < fuel)%nat ->
      generateInstructions fuel [] targetData chunkSizeBytes =
        Some (match targetData with [] => [] | _ => [Literal targetData] end)) /\
   (forall targetData, blen targetData - chunkSizeBytes + 1 < Z.of_nat fuel ->
      exists windows,
        findDifferingChunks fuel [] targetData chunkSizeBytes = Some windows) /\
   (forall instructions,
      rebuildTargetFromOriginal fuel [] instructions chunkSizeBytes =
        Some (Buffer_concat (map (rebuilt_chunk []) instructions)))) /\
  (forall (file targetData : Buffer) (instructions : list Instruction),
      file <> [] ->
      divideToChunks fuel file chunkSizeBytes = None /\
      findDifferingChunks fuel file targetData chunkSizeBytes = None /\
      generateInstructions fuel file targetData chunkSizeBytes = None /\
      rebuildTargetFromOriginal fuel file instructions chunkSizeBytes = None).
Proof.
  intros Hc Hfuel. split.
  - split; [by apply divideToChunks_empty |]. split; [| split].
    + intros t Ht. unfold generateInstructions.
      rewrite divideToChunks_empty by done. cbn [forEach_set].
      rewrite (generateInstructions_loop_empty_index t chunkSizeBytes fuel 0 0 [] []);
        [| lia | apply blen_nonneg | unfold blen; lia | done
         | by rewrite subarray_empty by lia].
      destruct t as [| b t]; [done |].
      destruct (Z.ltb_spec 0 (blen (b :: t))) as [_ | Hl];
        [| unfold blen in Hl; simpl in Hl; lia].
      by rewrite subarray_all by lia.
    + intros t Ht. unfold findDifferingChunks.
      rewrite divideToChunks_empty by done. cbn [forEach_set].
      apply findDifferingChunks_loop_empty_index; lia.
    + intros instructions. unfold rebuildTargetFromOriginal.
      by rewrite divideToChunks_empty by done.
  - intros file t instructions Hfile.
    unfold findDifferingChunks, generateInstructions, rebuildTargetFromOriginal.
    by rewrite divideToChunks_never_exits by done.
Qed.

Lemma no_chunk_size_check_witness :
  (divideToChunks 5 [] 0 = Some [] /\
   (forall targetData, (length targetData < 5)%nat ->
      generateInstructions 5 [] targetData 0 =
        Some (match targetData with [] => [] | _ => [Literal targetData] end)) /\
   (forall targetData, blen targetData - 0 + 1 < Z.of_nat 5 ->
      exists windows, findDifferingChunks 5 [] targetData 0 = Some windows) /\
   (forall instructions,
      rebuildTargetFromOriginal 5 [] instructions 0 =
        Some (Buffer_concat (map (rebuilt_chunk []) instructions)))) /\
  (forall (file targetData : Buffer) (instructions : list Instruction),
      file <> [] ->
      divideToChunks 5 file 0 = None /\
      findDifferingChunks 5 file targetData 0 = None /\
      generateInstructions 5 file targetData 0 = None /\
      rebuildTargetFromOriginal 5 file instructions 0 = None).
Proof. apply (no_chunk_size_check 5 0); lia. Defined.

(** C4 as stated fails: with a chunk size of 0 and an empty buffer to split,
    the four operations return a result and none raises an error. *)
Lemma chunk_size_zero_counterexample :
  divideToChunks 1 [] 0 = Some [] /\
  findDifferingChunks 3 [] (str "a") 0 = Some [[]; []] /\
  generateInstructions 2 [] (str "a") 0 = Some [Literal (str "a")] /\
  rebuildTargetFromOriginal 1 [] [Literal (str "a")] 0 = Some (Returned (str "a")).
Proof. repeat split; vm_compute; reflexivity. Qed.

(** * Further properties *)

(** ** Accounting for the bytes of the target *)

Lemma copy_count_nonneg (l : list Instruction) : 0 <= copy_count l.
Proof. induction l as [| [i | b] l IH]; simpl; lia. Qed.

Lemma literal_count_nonneg (l : list Instruction) : 0 <= literal_count l.
Proof. induction l as [| [i | b] l IH]; simpl; lia. Qed.

Lemma literal_bytes_nonneg (l : list Instruction) : 0 <= literal_bytes l.
Proof.
  induction l as [| [i | b] l IH]; cbn [literal_bytes]; [lia | lia |].
  pose proof (blen_nonneg b). lia.
Qed.

Lemma count_length (l : list Instruction) :
  Z.of_nat (length l) = copy_count l + literal_count l.
Proof. induction l as [| [i | b] l IH]; simpl length; cbn [copy_count literal_count]; lia. Qed.

Lemma copy_count_pos (l : list Instruction) :
  0 < copy_count l <-> exists i, CopyRef i ∈ l.
Proof.
  induction l as [| [i | b] l IH]; cbn [copy_count].
  - split; [lia | intros [i Hin]; by apply not_elem_of_nil in Hin].
  - pose proof (copy_count_nonneg l). split; [| lia].
    intros _. exists i. left.
  - rewrite IH. split; intros [i Hin]; exists i.
    + by right.
    + by apply elem_of_cons in Hin as [[=] | Hin].
Qed.

(** The instructions account for the target from [pos] to its end. *)
Lemma emits_covered (m : gmap Z ChecksumEntry) (t : Buffer) (c pos : Z)
    (l : list Instruction) :
  emits m t c pos l -> covered c l = blen t - pos.
Proof.
  unfold covered.
  induction 1 as [pos Hend | pos e rest Hpos Hm Hrest IH
                 | pos k rest Hpos Hk Hfit Hno Hnl Hrest IH];
    cbn [copy_count literal_bytes].
  - lia.
  - lia.
  - rewrite blen_subarray by lia. lia.
Qed.

(** A [Literal] is followed by a [CopyRef] or by nothing. *)
Lemma emits_literal_count (m : gmap Z ChecksumEntry) (t : Buffer) (c pos : Z)
    (l : list Instruction) :
  emits m t c pos l ->
  literal_count l <= copy_count l + 1 /\
  (~ starts_with_Literal l -> literal_count l <= copy_count l).
Proof.
  induction 1 as [pos Hend | pos e rest Hpos Hm Hrest [IH1 IH2]
                 | pos k rest Hpos Hk Hfit Hno Hnl Hrest [IH1 IH2]];
    cbn [copy_count literal_count].
  - lia.
  - lia.
  - specialize (IH2 Hnl). split; [lia |].
    intros Hn. exfalso. apply Hn. by eexists _, _.
Qed.

Lemma calculatePatchSize_fold (l : list Instruction) (totalSize : Z) :
  fold_left
    (fun totalSize instruction =>
       match instruction with
       | CopyRef _ => totalSize + 2
       | Literal bytes => totalSize + blen bytes
       end) l totalSize =
  totalSize + 2 * copy_count l + literal_bytes l.
Proof.
  revert totalSize.
  induction l as [| [i | b] l IH]; intros totalSize;
    cbn [fold_left copy_count literal_bytes]; [lia | rewrite IH; lia ..].
Qed.

Lemma calculatePatchSize_counts (l : list Instruction) :
  calculatePatchSize l = 2 * copy_count l + literal_bytes l.
Proof. unfold calculatePatchSize. rewrite calculatePatchSize_fold. lia. Qed.

(** X1.  The output of [generateInstructions] accounts for every byte of
    the target once: its [CopyRef]s for [C] bytes each, its [Literal]s for
    the bytes they hold. *)
Theorem instructions_cover_target (fuel : nat) (originalData targetData : Buffer) (C : Z) :
  0 < C ->
  (length originalData < fuel)%nat -> (length targetData < fuel)%nat ->
  exists out,
    generateInstructions fuel originalData targetData C = Some out /\
    C * copy_count out + literal_bytes out = blen targetData.
Proof.
  intros HC Ho Ht.
  destruct (generateInstructions_emits fuel originalData targetData C HC Ho Ht)
    as (out & Hout & Hemits).
  exists out. split; [done |].
  apply emits_covered in Hemits. unfold covered in Hemits. lia.
Qed.

Lemma instructions_cover_target_witness :
  exists out,
    generateInstructions 12 (str "1234567890") (str "12X34567890") 3 = Some out /\
    3 * copy_count out + literal_bytes out = blen (str "12X34567890").
Proof.
  apply (instructions_cover_target 12 (str "1234567890") (str "12X34567890") 3);
    [lia | simpl; lia | simpl; lia].
Defined.

(** X2.  The patch size that the test computes for the output of
    [generateInstructions] is the length of the target less [C - 2] for
    each [CopyRef]; for [C > 2] it is below the length of the target
    exactly when the output has a [CopyRef]. *)
Theorem patch_size (fuel : nat) (originalData targetData : Buffer) (C : Z) :
  0 < C ->
  (length originalData < fuel)%nat -> (length targetData < fuel)%nat ->
  exists out,
    generateInstructions fuel originalData targetData C = Some out /\
    calculatePatchSize out = blen targetData - (C - 2) * copy_count out /\
    (2 < C ->
     (calculatePatchSize out < blen targetData <-> exists i, CopyRef i ∈ out)).
Proof.
  intros HC Ho Ht.
  destruct (generateInstructions_emits fuel originalData targetData C HC Ho Ht)
    as (out & Hout & Hemits).
  exists out. split; [done |].
  apply emits_covered in Hemits. unfold covered in Hemits.
  rewrite calculatePatchSize_counts.
  split; [lia |]. intros HC2. rewrite <- copy_count_pos.
  pose proof (copy_count_nonneg out). nia.
Qed.

Lemma patch_size_witness :
  exists out,
    generateInstructions 12 (str "1234567890") (str "12X34567890") 3 = Some out /\
    calculatePatchSize out = blen (str "12X34567890") - (3 - 2) * copy_count out /\
    (2 < 3 ->
     (calculatePatchSize out < blen (str "12X34567890") <-> exists i, CopyRef i ∈ out)).
Proof.
  apply (patch_size 12 (str "1234567890") (str "12X34567890") 3);
    [lia | simpl; lia | simpl; lia].
Defined.

(** X3.  The output of [generateInstructions] has at most
    floor(length of the target / C) [CopyRef]s, at most one [Literal] more
    than [CopyRef]s, hence at most 2 * floor(length / C) + 1 instructions. *)
Theorem instruction_count (fuel : nat) (originalData targetData : Buffer) (C : Z) :
  0 < C ->
  (length originalData < fuel)%nat -> (length targetData < fuel)%nat ->
  exists out,
    generateInstructions fuel originalData targetData C = Some out /\
    copy_count out <= blen targetData / C /\
    literal_count out <= copy_count out + 1 /\
    Z.of_nat (length out) <= 2 * (blen targetData / C) + 1.
Proof.
  intros HC Ho Ht.
  destruct (generateInstructions_emits fuel originalData targetData C HC Ho Ht)
    as (out & Hout & Hemits).
  exists out. split; [done |].
  pose proof (emits_covered _ _ _ _ _ Hemits) as Hcov. unfold covered in Hcov.
  pose proof (emits_literal_count _ _ _ _ _ Hemits) as [Hlit _].
  pose proof (literal_bytes_nonneg out).
  assert (copy_count out <= blen targetData / C) as Hcopy
    by (apply Z.div_le_lower_bound; lia).
  rewrite count_length. lia.
Qed.

Lemma instruction_count_witness :
  exists out,
    generateInstructions 12 (str "1234567890") (str "12X34567890") 3 = Some out /\
    copy_count out <= blen (str "12X34567890") / 3 /\
    literal_count out <= copy_count out + 1 /\
    Z.of_nat (length out) <= 2 * (blen (str "12X34567890") / 3) + 1.
Proof.
  apply (instruction_count 12 (str "1234567890") (str "12X34567890") 3);
    [lia | simpl; lia | simpl; lia].
Defined.

(** ** Where an instruction sits in the target *)

(** The instructions after a prefix describe the target from the position
    that the prefix accounts for. *)
Lemma emits_suffix (m : gmap Z ChecksumEntry) (t : Buffer) (c : Z)
    (l1 l2 : list Instruction) :
  forall pos, emits m t c pos (l1 ++ l2) -> emits m t c (pos + covered c l1) l2.
Proof.
  unfold covered.
  induction l1 as [| instruction l1 IH]; intros pos H.
  - cbn [copy_count literal_bytes]. by replace (pos + (c * 0 + 0)) with pos by lia.
  - inversion H as [| pos' e rest Hpos Hm Hrest | pos' k rest Hpos Hk Hfit Hno Hnl Hrest];
      subst; cbn [copy_count literal_bytes].
    + apply IH in Hrest.
      by replace (pos + (c * (1 + copy_count l1) + literal_bytes l1))
        with (pos + c + (c * copy_count l1 + literal_bytes l1)) by lia.
    + apply IH in Hrest. rewrite blen_subarray by lia.
      by replace (pos + (c * copy_count l1
                         + (Z.max 0 (Z.min (pos + k - pos) (blen t - pos))
                            + literal_bytes l1)))
        with (pos + k + (c * copy_count l1 + literal_bytes l1)) by lia.
Qed.

Lemma covered_nonneg (c : Z) (l : list Instruction) : 0 < c -> 0 <= covered c l.
Proof.
  intros Hc. unfold covered.
  pose proof (copy_count_nonneg l). pose proof (literal_bytes_nonneg l). nia.
Qed.

(** X4.  A [CopyRef] of the output of [generateInstructions] stands at a
    position of the target where a whole window fits (the position that
    the instructions before it account for), and its index is that of the
    last chunk of the original with the weak checksum of this window; this
    chunk also has the strong checksum of the window. *)
Theorem copyref_checksums (fuel : nat) (originalData targetData : Buffer) (C : Z) :
  0 < C ->
  (length originalData < fuel)%nat -> (length targetData < fuel)%nat ->
  exists chunks out,
    divideToChunks fuel originalData C = Some chunks /\
    generateInstructions fuel originalData targetData C = Some out /\
    forall (l1 l2 : list Instruction) (i : Z),
      out = l1 ++ CopyRef i :: l2 ->
      let p := C * copy_count l1 + literal_bytes l1 in
      let windowBuffer := subarray targetData p (p + C) in
      0 <= p /\ p + C <= blen targetData /\
      exists (j : nat) (chunk : Buffer),
        i = Z.of_nat j /\
        last_with_weak chunks (calculateWeakBlockChecksum windowBuffer) j chunk /\
        calculateStrongBlockChecksum chunk =
          calculateStrongBlockChecksum windowBuffer.
Proof.
  intros HC Ho Ht.
  destruct (generateInstructions_emits fuel originalData targetData C HC Ho Ht)
    as (out & Hout & Hemits).
  exists (chunks_of originalData C), out.
  split; [by apply divideToChunks_returns |]. split; [done |].
  intros l1 l2 i -> p windowBuffer.
  apply emits_suffix in Hemits. unfold covered in Hemits.
  change (0 + (C * copy_count l1 + literal_bytes l1)) with p in Hemits.
  inversion Hemits as [| pos' e rest Hpos Hm Hrest |]; subst.
  apply match_at_Some in Hm as [Hfit [Hlook Hstrong]].
  split; [lia |]. split; [lia |].
  apply checksumMap_lookup in Hlook as (j & chunk & Hlast & ->).
  by exists j, chunk.
Qed.

Lemma copyref_checksums_witness :
  exists chunks out,
    divideToChunks 12 (str "1234567890") 3 = Some chunks /\
    generateInstructions 12 (str "1234567890") (str "12X34567890") 3 = Some out /\
    forall (l1 l2 : list Instruction) (i : Z),
      out = l1 ++ CopyRef i :: l2 ->
      let p := 3 * copy_count l1 + literal_bytes l1 in
      let windowBuffer := subarray (str "12X34567890") p (p + 3) in
      0 <= p /\ p + 3 <= blen (str "12X34567890") /\
      exists (j : nat) (chunk : Buffer),
        i = Z.of_nat j /\
        last_with_weak chunks (calculateWeakBlockChecksum windowBuffer) j chunk /\
        calculateStrongBlockChecksum chunk =
          calculateStrongBlockChecksum windowBuffer.
Proof.
  apply (copyref_checksums 12 (str "1234567890") (str "12X34567890") 3);
    [lia | simpl; lia | simpl; lia].
Defined.

(** ** [findDifferingChunks] against [generateInstructions] *)

Lemma length_subarray (t : Buffer) (pos k : Z) :
  0 <= pos -> 0 <= k -> pos + k <= blen t ->
  length (subarray t pos (pos + k)) = Z.to_nat k.
Proof.
  intros Hpos Hk Hfit.
  pose proof (blen_subarray t pos (pos + k) ltac:(lia) ltac:(lia)) as H.
  unfold blen in *. lia.
Qed.

Lemma run_windows_past (t : Buffer) (c : Z) (n : nat) :
  forall pos, blen t - c < pos -> run_windows t c pos n = [].
Proof.
  induction n as [| n IH]; intros pos Hpos; [done |].
  cbn [run_windows]. destruct (Z.leb_spec pos (blen t - c)); [lia |].
  rewrite IH by lia. done.
Qed.

Lemma windows_of_past (m : gmap Z ChecksumEntry) (t : Buffer) (c pos : Z)
    (l : list Instruction) :
  emits m t c pos l -> blen t - c < pos -> windows_of t c pos l = [].
Proof.
  induction 1 as [pos Hend | pos e rest Hpos Hm Hrest IH
                 | pos k rest Hpos Hk Hfit Hno Hnl Hrest IH];
    intros Hpast; cbn [windows_of].
  - done.
  - apply match_at_Some in Hm as [Hf _]. lia.
  - rewrite run_windows_past by done. rewrite blen_subarray by lia.
    replace (pos + Z.max 0 (Z.min (pos + k - pos) (blen t - pos))) with (pos + k)
      by lia.
    rewrite IH by lia. done.
Qed.

(** One position of a run of misses. *)
Lemma emits_miss_step (m : gmap Z ChecksumEntry) (t : Buffer) (c pos : Z)
    (l : list Instruction) :
  emits m t c pos l -> pos < blen t -> match_at m t c pos = None ->
  exists l',
    emits m t c (pos + 1) l' /\
    windows_of t c pos l =
      (if pos <=? blen t - c then [subarray t pos (pos + c)] else [])
      ++ windows_of t c (pos + 1) l'.
Proof.
  intros H Hlt Hmiss.
  destruct H as [pos Hend | pos e rest Hpos Hm Hrest
                | pos k rest Hpos Hk Hfit Hno Hnl Hrest].
  - lia.
  - congruence.
  - cbn [windows_of]. rewrite length_subarray by lia.
    rewrite blen_subarray by lia.
    replace (pos + Z.max 0 (Z.min (pos + k - pos) (blen t - pos))) with (pos + k)
      by lia.
    replace (Z.to_nat k) with (S (Z.to_nat (k - 1))) by lia.
    cbn [run_windows]. rewrite <- app_assoc.
    destruct (decide (k = 1)) as [-> | Hk1].
    + exists rest. split; [done |]. done.
    + exists (Literal (subarray t (pos + 1) (pos + 1 + (k - 1))) :: rest). split.
      * apply emits_literal; [lia | lia | lia | | done |].
        -- intros p Hp. apply Hno. lia.
        -- by replace (pos + 1 + (k - 1)) with (pos + k) by lia.
      * cbn [windows_of]. rewrite length_subarray by lia.
        rewrite blen_subarray by lia.
        replace (pos + 1 + Z.max 0 (Z.min (pos + 1 + (k - 1) - (pos + 1))
                                          (blen t - (pos + 1))))
          with (pos + k) by lia.
        done.
Qed.

Lemma findDifferingChunks_loop_windows (m : gmap Z ChecksumEntry) (t : Buffer) (c : Z) :
  0 < c ->
  forall (fuel : nat) (pos : Z) (l : list Instruction) (differingChunks : list Buffer),
    emits m t c pos l -> 0 <= pos ->
    blen t - pos < Z.of_nat fuel ->
    findDifferingChunks_loop fuel m t c pos (subarray t pos (pos + c)) differingChunks =
      Some (differingChunks ++ windows_of t c pos l).
Proof.
  intros Hc. induction fuel as [| fuel IH]; intros pos l dc Hemits Hpos Hfuel.
  - (* no fuel: the cursor is past the end, which [emits] excludes *)
    exfalso. destruct Hemits; lia.
  - cbn [findDifferingChunks_loop].
    destruct (Z.leb_spec pos (blen t - c)) as [Hfit | Hpast].
    + destruct (match_at m t c pos) as [e |] eqn:Hm.
      * destruct Hemits as [pos Hend | pos e' rest Hpos' Hm' Hrest
                           | pos k rest Hpos' Hk Hfit' Hno Hnl Hrest].
        -- lia.
        -- unfold match_at in Hm'.
           destruct (Z.leb_spec pos (blen t - c)); [| done].
           rewrite Hm'. cbn [windows_of]. apply IH; [done | lia | lia].
        -- rewrite Hno in Hm by lia. done.
      * destruct (emits_miss_step _ _ _ _ _ Hemits ltac:(lia) Hm) as (l' & Hl' & ->).
        unfold match_at in Hm.
        destruct (Z.leb_spec pos (blen t - c)); [| lia].
        rewrite Hm. rewrite (IH (pos + 1) l'); [| done | lia | lia].
        rewrite (subarray_all (subarray t pos (pos + c)))
          by (rewrite blen_subarray by lia; lia).
        by rewrite <- app_assoc.
    + rewrite (windows_of_past _ _ _ _ _ Hemits) by lia. by rewrite app_nil_r.
Qed.

(** X5.  [findDifferingChunks] and [generateInstructions] scan alike: the
    windows that [findDifferingChunks] returns are the windows at the
    positions that the [Literal]s of the output of [generateInstructions]
    cover, in order, as far as a whole window fits. *)
Theorem findDifferingChunks_of_instructions (fuel : nat)
    (originalData targetData : Buffer) (C : Z) :
  0 < C ->
  (length originalData < fuel)%nat -> (length targetData < fuel)%nat ->
  exists out,
    generateInstructions fuel originalData targetData C = Some out /\
    findDifferingChunks fuel originalData targetData C =
      Some (windows_of targetData C 0 out).
Proof.
  intros HC Ho Ht.
  destruct (generateInstructions_emits fuel originalData targetData C HC Ho Ht)
    as (out & Hout & Hemits).
  exists out. split; [done |].
  unfold findDifferingChunks. rewrite divideToChunks_returns by done.
  rewrite (findDifferingChunks_loop_windows _ _ _ HC fuel 0 out []);
    [done | done | lia | unfold blen; lia].
Qed.

Lemma findDifferingChunks_of_instructions_witness :
  exists out,
    generateInstructions 13 (str "1234567890") (str "123456789XYZ") 1 = Some out /\
    findDifferingChunks 13 (str "1234567890") (str "123456789XYZ") 1 =
      Some (windows_of (str "123456789XYZ") 1 0 out).
Proof.
  apply (findDifferingChunks_of_instructions 13 (str "1234567890") (str "123456789XYZ") 1);
    [lia | simpl; lia | simpl; lia].
Defined.

Lemma run_windows_elem (t : Buffer) (c : Z) (w : Buffer) (n : nat) :
  forall pos, w ∈ run_windows t c pos n ->
    exists p, pos <= p < pos + Z.of_nat n /\ p <= blen t - c /\
              w = subarray t p (p + c).
Proof.
  induction n as [| n IH]; intros pos Hin.
  - by apply not_elem_of_nil in Hin.
  - cbn [run_windows] in Hin. apply elem_of_app in Hin as [Hin | Hin].
    + destruct (Z.leb_spec pos (blen t - c)).
      * apply list_elem_of_singleton in Hin as ->. exists pos. split; [lia | done].
      * by apply not_elem_of_nil in Hin.
    + apply IH in Hin as (p & Hp & Hfit & ->). exists p. split; [lia | done].
Qed.

Lemma length_run_windows (t : Buffer) (c : Z) (n : nat) :
  forall pos,
    Z.of_nat (length (run_windows t c pos n)) =
      Z.max 0 (Z.min (Z.of_nat n) (blen t - c + 1 - pos)).
Proof.
  induction n as [| n IH]; intros pos; [simpl; lia |].
  cbn [run_windows]. rewrite length_app, Nat2Z.inj_add, IH.
  destruct (Z.leb_spec pos (blen t - c)); simpl length; lia.
Qed.

Lemma windows_of_sound (m : gmap Z ChecksumEntry) (t : Buffer) (c pos : Z)
    (l : list Instruction) :
  0 < c -> emits m t c pos l ->
  forall w, w ∈ windows_of t c pos l ->
    exists p, pos <= p <= blen t - c /\ w = subarray t p (p + c) /\
              match_at m t c p = None.
Proof.
  intros Hc.
  induction 1 as [pos Hend | pos e rest Hpos Hm Hrest IH
                 | pos k rest Hpos Hk Hfit Hno Hnl Hrest IH];
    intros w Hin; cbn [windows_of] in Hin.
  - by apply not_elem_of_nil in Hin.
  - apply IH in Hin as (p & Hp & Hw & Hmiss). exists p. split; [lia | done].
  - rewrite length_subarray, blen_subarray in Hin by lia.
    replace (pos + Z.max 0 (Z.min (pos + k - pos) (blen t - pos))) with (pos + k)
      in Hin by lia.
    apply elem_of_app in Hin as [Hin | Hin].
    + apply run_windows_elem in Hin as (p & Hp & Hf & ->).
      exists p. split; [lia |]. split; [done |]. apply Hno. lia.
    + apply IH in Hin as (p & Hp & Hw & Hmiss). exists p. split; [lia | done].
Qed.

Lemma length_windows_of (m : gmap Z ChecksumEntry) (t : Buffer) (c pos : Z)
    (l : list Instruction) :
  0 < c -> emits m t c pos l ->
  Z.of_nat (length (windows_of t c pos l)) <= Z.max 0 (blen t - c + 1 - pos).
Proof.
  intros Hc.
  induction 1 as [pos Hend | pos e rest Hpos Hm Hrest IH
                 | pos k rest Hpos Hk Hfit Hno Hnl Hrest IH];
    cbn [windows_of].
  - simpl. lia.
  - lia.
  - rewrite length_subarray, blen_subarray by lia.
    replace (pos + Z.max 0 (Z.min (pos + k - pos) (blen t - pos))) with (pos + k)
      by lia.
    rewrite length_app, Nat2Z.inj_add, length_run_windows. lia.
Qed.

(** X6.  Every buffer that [findDifferingChunks] returns is a window of
    [C] bytes of the target that is no match; there are at most
    length - C + 1 of them. *)
Theorem findDifferingChunks_windows (fuel : nat) (originalData targetData : Buffer)
    (C : Z) :
  0 < C ->
  (length originalData < fuel)%nat -> (length targetData < fuel)%nat ->
  exists chunks windows,
    divideToChunks fuel originalData C = Some chunks /\
    findDifferingChunks fuel originalData targetData C = Some windows /\
    Z.of_nat (length windows) <= Z.max 0 (blen targetData - C + 1) /\
    forall w, w ∈ windows ->
      blen w = C /\
      (exists p, 0 <= p <= blen targetData - C /\
                 w = subarray targetData p (p + C)) /\
      ~ exists e, is_match (forEach_set chunks 0 ∅) w e.
Proof.
  intros HC Ho Ht.
  destruct (generateInstructions_emits fuel originalData targetData C HC Ho Ht)
    as (out & Hout & Hemits).
  exists (chunks_of originalData C), (windows_of targetData C 0 out).
  split; [by apply divideToChunks_returns |]. split.
  { unfold findDifferingChunks. rewrite divideToChunks_returns by done.
    rewrite (findDifferingChunks_loop_windows _ _ _ HC fuel 0 out []);
      [done | done | lia | unfold blen; lia]. }
  split.
  { pose proof (length_windows_of _ _ _ _ _ HC Hemits). lia. }
  intros w Hin.
  destruct (windows_of_sound _ _ _ _ _ HC Hemits w Hin) as (p & Hp & -> & Hmiss).
  split; [rewrite blen_subarray by lia; lia |].
  split; [by exists p |].
  unfold match_at in Hmiss.
  destruct (Z.leb_spec p (blen targetData - C)); [| lia].
  by apply probe_None.
Qed.

Lemma findDifferingChunks_windows_witness :
  exists chunks windows,
    divideToChunks 13 (str "1234567890") 1 = Some chunks /\
    findDifferingChunks 13 (str "1234567890") (str "123456789XYZ") 1 = Some windows /\
    Z.of_nat (length windows) <= Z.max 0 (blen (str "123456789XYZ") - 1 + 1) /\
    forall w, w ∈ windows ->
      blen w = 1 /\
      (exists p, 0 <= p <= blen (str "123456789XYZ") - 1 /\
                 w = subarray (str "123456789XYZ") p (p + 1)) /\
      ~ exists e, is_match (forEach_set chunks 0 ∅) w e.
Proof.
  apply (findDifferingChunks_windows 13 (str "1234567890") (str "123456789XYZ") 1);
    [lia | simpl; lia | simpl; lia].
Defined.

(** ** Targets with no matching window *)

Lemma run_windows_seq (t : Buffer) (c : Z) (n : nat) :
  0 < c ->
  forall pos, 0 <= pos -> pos + Z.of_nat n = blen t ->
    run_windows t c pos n =
      map (fun q : nat => subarray t (Z.of_nat q) (Z.of_nat q + c))
        (seq (Z.to_nat pos) (Z.to_nat (blen t - c + 1 - pos))).
Proof.
  intros Hc. induction n as [| n IH]; intros pos Hpos Hlen.
  - cbn [run_windows].
    by replace (Z.to_nat (blen t - c + 1 - pos)) with 0%nat by lia.
  - cbn [run_windows]. rewrite (IH (pos + 1)) by lia.
    destruct (Z.leb_spec pos (blen t - c)) as [Hfit | Hpast].
    + replace (Z.to_nat (blen t - c + 1 - pos))
        with (S (Z.to_nat (blen t - c + 1 - (pos + 1)))) by lia.
      cbn [seq map app]. rewrite Z2Nat.id by lia.
      do 2 f_equal. f_equal. lia.
    + replace (Z.to_nat (blen t - c + 1 - pos)) with 0%nat by lia.
      replace (Z.to_nat (blen t - c + 1 - (pos + 1))) with 0%nat by lia.
      done.
Qed.

(** When no window of the target is a match, the target is one run. *)
Lemma no_match_emits (m : gmap Z ChecksumEntry) (t : Buffer) (c : Z) :
  0 < c ->
  (forall p, 0 <= p <= blen t - c -> match_at m t c p = None) ->
  emits m t c 0 (match t with [] => [] | _ => [Literal t] end).
Proof.
  intros Hc Hmiss. destruct t as [| b t]; [by apply emits_end |].
  assert (0 < blen (b :: t)) as Hl by (unfold blen; simpl; lia).
  replace [Literal (b :: t)]
    with [Literal (subarray (b :: t) 0 (0 + blen (b :: t)))]
    by (by rewrite subarray_all by lia).
  apply emits_literal; [lia | lia | lia | | |].
  - intros p Hp. destruct (Z_le_gt_dec p (blen (b :: t) - c)).
    + apply Hmiss. lia.
    + unfold match_at. destruct (Z.leb_spec p (blen (b :: t) - c)); [lia | done].
  - intros (x & r & [=]).
  - apply emits_end. lia.
Qed.

Lemma windows_of_one_Literal (t : Buffer) (c : Z) :
  0 < c ->
  windows_of t c 0 (match t with [] => [] | _ => [Literal t] end) =
    map (fun q : nat => subarray t (Z.of_nat q) (Z.of_nat q + c))
      (seq 0 (Z.to_nat (blen t - c + 1))).
Proof.
  intros Hc. destruct t as [| b t].
  - cbn [windows_of]. by replace (Z.to_nat (blen [] - c + 1)) with 0%nat
      by (unfold blen; simpl; lia).
  - cbn [windows_of]. rewrite app_nil_r.
    rewrite run_windows_seq; [| done | lia | unfold blen; lia].
    by rewrite Z.sub_0_r.
Qed.

Lemma no_match_results (fuel : nat) (originalData targetData : Buffer) (C : Z) :
  0 < C ->
  (length originalData < fuel)%nat -> (length targetData < fuel)%nat ->
  (forall p, 0 <= p <= blen targetData - C ->
     match_at (forEach_set (chunks_of originalData C) 0 ∅) targetData C p = None) ->
  generateInstructions fuel originalData targetData C =
    Some (match targetData with [] => [] | _ => [Literal targetData] end) /\
  findDifferingChunks fuel originalData targetData C =
    Some (map (fun q : nat => subarray targetData (Z.of_nat q) (Z.of_nat q + C))
            (seq 0 (Z.to_nat (blen targetData - C + 1)))).
Proof.
  intros HC Ho Ht Hmiss.
  pose proof (no_match_emits _ _ _ HC Hmiss) as Hexp.
  destruct (generateInstructions_emits fuel originalData targetData C HC Ho Ht)
    as (out & Hout & Hemits).
  assert (out = match targetData with [] => [] | _ => [Literal targetData] end)
    as -> by (by eapply emits_functional).
  split; [done |].
  unfold findDifferingChunks. rewrite divideToChunks_returns by done.
  rewrite (findDifferingChunks_loop_windows _ _ _ HC fuel 0 _ [] Hexp);
    [| lia | unfold blen; lia].
  by rewrite windows_of_one_Literal.
Qed.

(** X7.  When no chunk of the original has both checksums of a window of
    the target, [generateInstructions] returns the whole target as one
    [Literal] (nothing for an empty target) and [findDifferingChunks]
    returns every window of the target, from position 0 to
    length - C. *)
Theorem nothing_matches (fuel : nat) (originalData targetData : Buffer) (C : Z)
    (chunks : list Buffer) :
  0 < C ->
  (length originalData < fuel)%nat -> (length targetData < fuel)%nat ->
  divideToChunks fuel originalData C = Some chunks ->
  (forall (chunk : Buffer) (p : Z),
      chunk ∈ chunks -> 0 <= p <= blen targetData - C ->
      ~ (calculateWeakBlockChecksum chunk =
           calculateWeakBlockChecksum (subarray targetData p (p + C)) /\
         calculateStrongBlockChecksum chunk =
           calculateStrongBlockChecksum (subarray targetData p (p + C)))) ->
  generateInstructions fuel originalData targetData C =
    Some (match targetData with [] => [] | _ => [Literal targetData] end) /\
  findDifferingChunks fuel originalData targetData C =
    Some (map (fun q : nat => subarray targetData (Z.of_nat q) (Z.of_nat q + C))
            (seq 0 (Z.to_nat (blen targetData - C + 1)))).
Proof.
  intros HC Ho Ht Hchunks Hdiff.
  rewrite divideToChunks_returns in Hchunks by done. injection Hchunks as <-.
  apply no_match_results; [done | done | done |].
  intros p Hp.
  destruct (match_at _ targetData C p) as [e |] eqn:Hm; [| done].
  exfalso. apply match_at_Some in Hm as [_ [Hlook Hstrong]].
  apply checksumMap_lookup in Hlook as (j & chunk & (Hj & Hw & _) & ->).
  apply (Hdiff chunk p); [by eapply list_elem_of_lookup_2 | done |].
  split; done.
Qed.

Lemma nothing_matches_witness :
  generateInstructions 5 (str "abcd") (str "xyz") 2 = Some [Literal (str "xyz")] /\
  findDifferingChunks 5 (str "abcd") (str "xyz") 2 = Some [str "xy"; str "yz"].
Proof.
  apply (nothing_matches 5 (str "abcd") (str "xyz") 2 [str "ab"; str "cd"]);
    [lia | simpl; lia | simpl; lia | reflexivity |].
  intros chunk p Hin Hp [Hw _].
  change (blen (str "xyz") - 2) with 1 in Hp.
  assert (p = 0 \/ p = 1) as Hcases by lia.
  apply elem_of_cons in Hin as [-> | Hin];
    [| apply elem_of_cons in Hin as [-> | Hin];
       [| by apply not_elem_of_nil in Hin]];
    destruct Hcases as [-> | ->]; vm_compute in Hw; discriminate Hw.
Defined.

(** X8.  With an empty original nothing can match and no chunk can be
    referred to, whatever the chunk size: [generateInstructions] returns
    the whole target as one [Literal] (nothing for an empty target), and
    [rebuildTargetFromOriginal] throws on every instruction list that has a
    [CopyRef] and returns the bytes of the [Literal]s otherwise. *)
Theorem empty_original (fuel : nat) (targetData : Buffer)
    (instructions : list Instruction) (chunkSizeBytes : Z) :
  (length targetData < fuel)%nat ->
  generateInstructions fuel [] targetData chunkSizeBytes =
    Some (match targetData with [] => [] | _ => [Literal targetData] end) /\
  ((exists i, CopyRef i ∈ instructions) ->
   rebuildTargetFromOriginal fuel [] instructions chunkSizeBytes = Some Thrown) /\
  ((forall i, CopyRef i ∉ instructions) ->
   rebuildTargetFromOriginal fuel [] instructions chunkSizeBytes =
     Some (Returned (concat (map (contribution []) instructions)))).
Proof.
  intros Ht. split; [| split].
  - unfold generateInstructions.
    rewrite divideToChunks_empty by lia. cbn [forEach_set].
    rewrite (generateInstructions_loop_empty_index targetData chunkSizeBytes fuel 0 0 [] []);
      [| lia | apply blen_nonneg | unfold blen; lia | done
       | by rewrite subarray_empty by lia].
    destruct targetData as [| b t]; [done |].
    destruct (Z.ltb_spec 0 (blen (b :: t))) as [_ | Hl];
      [| unfold blen in Hl; simpl in Hl; lia].
    by rewrite subarray_all by lia.
  - intros [i Hin]. unfold rebuildTargetFromOriginal.
    rewrite divideToChunks_empty by lia. f_equal.
    apply Buffer_concat_Thrown, list_elem_of_fmap. exists (CopyRef i).
    split; [| done]. simpl. unfold array_get.
    destruct (i <? 0); [done | by rewrite lookup_nil].
  - intros Hnone. unfold rebuildTargetFromOriginal.
    rewrite divideToChunks_empty by lia. f_equal.
    apply Buffer_concat_Returned. intros i Hin. by apply Hnone in Hin.
Qed.

Lemma empty_original_witness :
  generateInstructions 4 [] (str "xyz") 2 = Some [Literal (str "xyz")] /\
  rebuildTargetFromOriginal 4 [] [Literal (str "xyz"); CopyRef 0] 2 = Some Thrown /\
  rebuildTargetFromOriginal 4 [] [Literal (str "xy"); Literal (str "z")] 2 =
    Some (Returned (str "xyz")).
Proof.
  split; [| split].
  - refine (proj1 (empty_original 4 (str "xyz") [] 2 _)). simpl. lia.
  - refine (proj1 (proj2 (empty_original 4 (str "xyz")
                            [Literal (str "xyz"); CopyRef 0] 2 _)) _);
      [simpl; lia |]. exists 0. right. left.
  - refine (proj2 (proj2 (empty_original 4 (str "xyz")
                            [Literal (str "xy"); Literal (str "z")] 2 _)) _);
      [simpl; lia |]. intros i Hin.
    repeat (apply elem_of_cons in Hin as [[=] | Hin]).
    by apply not_elem_of_nil in Hin.
Defined.

(** ** Targets made of chunks of the original *)

Lemma windows_of_copies_tail (t : Buffer) (c : Z) (idxs : list Z)
    (last : list Instruction) :
  forall pos,
    windows_of t c pos (map CopyRef idxs ++ last) =
      windows_of t c (pos + c * Z.of_nat (length idxs)) last.
Proof.
  induction idxs as [| i idxs IH]; intros pos.
  - cbn [map app length]. f_equal. lia.
  - cbn [map app windows_of]. rewrite IH. f_equal. simpl length. lia.
Qed.

(** The bytes after the last whole piece, as one [Literal]. *)
Lemma tail_emits (m : gmap Z ChecksumEntry) (t : Buffer) (c pos : Z) (rest : Buffer) :
  0 < c -> 0 <= pos <= blen t ->
  drop (Z.to_nat pos) t = rest -> blen rest < c ->
  emits m t c pos (match rest with [] => [] | _ => [Literal rest] end) /\
  windows_of t c pos (match rest with [] => [] | _ => [Literal rest] end) = [].
Proof.
  intros Hc Hpos Hdrop Hshort.
  assert (blen t - pos = blen rest) as Hlen.
  { apply (f_equal length) in Hdrop. rewrite length_drop in Hdrop.
    unfold blen in *. lia. }
  destruct rest as [| b rest].
  - split; [| done]. apply emits_end. change (blen []) with 0 in Hlen. lia.
  - assert (0 < blen (b :: rest)) as Hk by (unfold blen; simpl; lia).
    assert (subarray t pos (pos + blen (b :: rest)) = b :: rest) as Hsub.
    { rewrite subarray_nonneg by lia. rewrite Hdrop.
      apply take_ge. unfold blen. lia. }
    assert (emits m t c pos [Literal (b :: rest)]) as Hemits.
    { rewrite <- Hsub. apply emits_literal; [lia | lia | lia | | |].
      - intros p Hp. unfold match_at.
        destruct (Z.leb_spec p (blen t - c)); [lia | done].
      - intros (x & r & [=]).
      - apply emits_end. lia. }
    split; [done |].
    destruct (Z_le_gt_dec pos (blen t - c)); [lia |].
    eapply windows_of_past; [done | lia].
Qed.

Lemma reassembled_emits (chunks : list Buffer) (t : Buffer) (c : Z) (rest : Buffer) :
  0 < c -> weak_separates chunks -> blen rest < c ->
  forall (pieces : list Buffer) (pos : Z),
    0 <= pos <= blen t ->
    drop (Z.to_nat pos) t = concat pieces ++ rest ->
    Forall (fun piece => piece ∈ chunks /\ blen piece = c) pieces ->
    exists idxs : list Z,
      emits (forEach_set chunks 0 ∅) t c pos
        (map CopyRef idxs ++ match rest with [] => [] | _ => [Literal rest] end) /\
      pos + c * Z.of_nat (length idxs) <= blen t /\
      drop (Z.to_nat (pos + c * Z.of_nat (length idxs))) t = rest /\
      Forall2
        (fun i piece =>
           exists (j : nat) (cj : Buffer),
             i = Z.of_nat j /\
             last_with_weak chunks (calculateWeakBlockChecksum piece) j cj)
        idxs pieces.
Proof.
  intros Hc Hsep Hshort.
  induction pieces as [| piece pieces IH]; intros pos Hpos Hdrop Hall.
  - exists []. cbn [map app length concat] in *.
    replace (pos + c * Z.of_nat 0) with pos by lia.
    split; [by apply tail_emits |]. split; [lia |]. split; [done | constructor].
  - apply Forall_cons in Hall as [[Hin Hlen] Hall].
    cbn [concat] in Hdrop. rewrite <- app_assoc in Hdrop.
    assert (blen t - pos = c + blen (concat pieces ++ rest)) as Hrest.
    { apply (f_equal length) in Hdrop.
      rewrite length_drop, length_app in Hdrop. unfold blen in *. lia. }
    pose proof (blen_nonneg (concat pieces ++ rest)) as Hnn.
    assert (subarray t pos (pos + c) = piece) as Hwindow.
    { rewrite subarray_nonneg by lia. rewrite Hdrop.
      replace (pos + c - pos) with c by lia.
      rewrite take_app_length'; [done | unfold blen in Hlen; lia]. }
    destruct (forEach_set_has chunks piece Hin 0 ∅) as [e He].
    destruct (checksumMap_lookup _ _ _ He) as (j & cj & Hlast & ->).
    destruct (IH (pos + c)) as (idxs & Hemits & Hend & Htail & Hidx);
      [lia | | done |].
    { replace (Z.to_nat (pos + c)) with (Z.to_nat pos + Z.to_nat c)%nat by lia.
      rewrite <- drop_drop, Hdrop.
      rewrite drop_app_length'; [done | unfold blen in Hlen; lia]. }
    exists (Z.of_nat j :: idxs).
    replace (pos + c * Z.of_nat (length (Z.of_nat j :: idxs)))
      with (pos + c + c * Z.of_nat (length idxs)) by (simpl length; lia).
    split; [| split; [done | split; [done |]]].
    + cbn [map app]. change (Z.of_nat j) with (index (entry_of (Z.of_nat j) cj)).
      apply emits_copy; [lia | | done].
      apply match_at_Some. split; [lia |]. rewrite Hwindow.
      split; [done |]. simpl.
      destruct Hlast as (Hj & Hw & _).
      apply list_elem_of_lookup in Hin as [k Hk].
      by eapply Hsep.
    + constructor; [| done]. by exists j, cj.
Qed.

(** X9.  A target made of whole chunks of the original, in any order and
    with repetitions, followed by fewer than [C] other bytes, is encoded by
    one [CopyRef] for each of these chunks and one [Literal] for the bytes
    that follow (none when there are no such bytes), and
    [findDifferingChunks] finds nothing; this when chunks of the original
    with the same weak checksum have the same strong checksum.  Each index
    is that of the last chunk with the weak checksum of the chunk it stands
    for. *)
Theorem chunks_reassembled (fuel : nat) (originalData : Buffer) (C : Z)
    (chunks pieces : list Buffer) (rest : Buffer) :
  0 < C ->
  (length originalData < fuel)%nat ->
  (length (concat pieces ++ rest) < fuel)%nat ->
  divideToChunks fuel originalData C = Some chunks ->
  weak_separates chunks ->
  Forall (fun piece => piece ∈ chunks /\ blen piece = C) pieces ->
  blen rest < C ->
  findDifferingChunks fuel originalData (concat pieces ++ rest) C = Some [] /\
  exists idxs : list Z,
    generateInstructions fuel originalData (concat pieces ++ rest) C =
      Some (map CopyRef idxs ++ match rest with [] => [] | _ => [Literal rest] end) /\
    Forall2
      (fun i piece =>
         exists (j : nat) (cj : Buffer),
           i = Z.of_nat j /\
           last_with_weak chunks (calculateWeakBlockChecksum piece) j cj)
      idxs pieces.
Proof.
  intros HC Ho Ht Hchunks Hsep Hall Hshort.
  rewrite divideToChunks_returns in Hchunks by done. injection Hchunks as <-.
  set (t := concat pieces ++ rest) in *.
  destruct (reassembled_emits (chunks_of originalData C) t C rest HC Hsep Hshort
              pieces 0) as (idxs & Hexp & Hend & Htail & Hidx);
    [pose proof (blen_nonneg t); lia | done | done |].
  split.
  - unfold findDifferingChunks. rewrite divideToChunks_returns by done.
    rewrite (findDifferingChunks_loop_windows _ _ _ HC fuel 0 _ [] Hexp);
      [| lia | unfold blen; lia].
    rewrite windows_of_copies_tail. cbn [app]. f_equal.
    apply (tail_emits (forEach_set (chunks_of originalData C) 0 ∅));
      [done | nia | done | done].
  - exists idxs. split; [| done].
    destruct (generateInstructions_emits fuel originalData t C HC Ho Ht)
      as (out & Hout & Hemits).
    rewrite Hout. f_equal. by eapply emits_functional.
Qed.

Lemma chunks_reassembled_witness :
  findDifferingChunks 8 (str "abcdef") (str "efabefX") 2 = Some [] /\
  exists idxs : list Z,
    generateInstructions 8 (str "abcdef") (str "efabefX") 2 =
      Some (map CopyRef idxs ++ [Literal (str "X")]) /\
    Forall2
      (fun i piece =>
         exists (j : nat) (cj : Buffer),
           i = Z.of_nat j /\
           last_with_weak [str "ab"; str "cd"; str "ef"]
             (calculateWeakBlockChecksum piece) j cj)
      idxs [str "ef"; str "ab"; str "ef"].
Proof.
  apply (chunks_reassembled 8 (str "abcdef") 2 [str "ab"; str "cd"; str "ef"]
           [str "ef"; str "ab"; str "ef"] (str "X"));
    [lia | simpl; lia | simpl; lia | reflexivity | | | unfold blen; simpl; lia].
  - apply weak_distinct_separates.
    intros i j ci cj Hi Hj Hw.
    destruct i as [| [| [| i]]]; try done;
      destruct j as [| [| [| j]]]; try done;
      injection Hi as <-; injection Hj as <-;
      vm_compute in Hw; done.
  - repeat constructor; (by left) || (by right; left) || (by right; right; left).
Defined.

(** ** Reconstructor *)

Lemma Buffer_concat_app (l1 l2 : list (option Buffer)) :
  Buffer_concat (l1 ++ l2) =
    match Buffer_concat l1, Buffer_concat l2 with
    | Returned a, Returned b => Returned (a ++ b)
    | _, _ => Thrown
    end.
Proof.
  induction l1 as [| [b |] l1 IH]; cbn [app Buffer_concat].
  - by destruct (Buffer_concat l2).
  - rewrite IH. destruct (Buffer_concat l1), (Buffer_concat l2); try done.
    by rewrite app_assoc.
  - done.
Qed.

(** X10.  Rebuilding from two instruction lists put end to end gives the
    two rebuilt buffers end to end; it throws as soon as one of the two
    does. *)
Theorem rebuild_app (fuel : nat) (originalData : Buffer)
    (l1 l2 : list Instruction) (chunkSizeBytes : Z) :
  rebuildTargetFromOriginal fuel originalData (l1 ++ l2) chunkSizeBytes =
    join_rebuilt (rebuildTargetFromOriginal fuel originalData l1 chunkSizeBytes)
                 (rebuildTargetFromOriginal fuel originalData l2 chunkSizeBytes).
Proof.
  unfold rebuildTargetFromOriginal, join_rebuilt.
  destruct (divideToChunks fuel originalData chunkSizeBytes) as [chunks |]; [| done].
  rewrite map_app, Buffer_concat_app.
  by destruct (Buffer_concat (map (rebuilt_chunk chunks) l1)),
              (Buffer_concat (map (rebuilt_chunk chunks) l2)).
Qed.

Lemma Buffer_concat_all_chunks (chunks : list Buffer) (n : nat) :
  (n <= length chunks)%nat ->
  Buffer_concat (map (rebuilt_chunk chunks)
                   (map (fun j : nat => CopyRef (Z.of_nat j)) (seq 0 n))) =
    Returned (concat (take n chunks)).
Proof.
  induction n as [| n IH]; intros Hn; [done |].
  rewrite seq_S, !map_app, Buffer_concat_app, IH by lia.
  destruct (lookup_lt_is_Some_2 chunks n ltac:(lia)) as [chunk Hchunk].
  cbn [map rebuilt_chunk Buffer_concat]. unfold array_get.
  destruct (Z.ltb_spec (Z.of_nat (0 + n)) 0); [lia |].
  rewrite Nat2Z.id. cbn [Nat.add]. rewrite Hchunk.
  rewrite (take_S_r _ _ _ Hchunk), concat_app. simpl. done.
Qed.

(** X11.  The instructions [CopyRef 0, CopyRef 1, ...], one for each chunk
    of the original, rebuild the original. *)
Theorem rebuild_all_chunks (fuel : nat) (originalData : Buffer) (C : Z) :
  0 < C -> (length originalData < fuel)%nat ->
  exists chunks,
    divideToChunks fuel originalData C = Some chunks /\
    rebuildTargetFromOriginal fuel originalData
      (map (fun j : nat => CopyRef (Z.of_nat j)) (seq 0 (length chunks))) C =
    Some (Returned originalData).
Proof.
  intros HC Ho. exists (chunks_of originalData C).
  split; [by apply divideToChunks_returns |].
  unfold rebuildTargetFromOriginal. rewrite divideToChunks_returns by done.
  rewrite Buffer_concat_all_chunks by done.
  by rewrite firstn_all, concat_chunks_of.
Qed.

Lemma rebuild_all_chunks_witness :
  exists chunks,
    divideToChunks 11 (str "1234567890") 3 = Some chunks /\
    rebuildTargetFromOriginal 11 (str "1234567890")
      (map (fun j : nat => CopyRef (Z.of_nat j)) (seq 0 (length chunks))) 3 =
    Some (Returned (str "1234567890")).
Proof.
  apply (rebuild_all_chunks 11 (str "1234567890") 3); [lia | simpl; lia].
Defined.

Lemma Buffer_concat_Thrown_inv (l : list (option Buffer)) :
  Buffer_concat l = Thrown -> None ∈ l.
Proof.
  induction l as [| [b |] l IH]; cbn [Buffer_concat]; intros H.
  - done.
  - right. apply IH. by destruct (Buffer_concat l).
  - left.
Qed.

Lemma array_get_out_of_range {A} (arr : list A) (i : Z) :
  array_get arr i = None <-> i < 0 \/ Z.of_nat (length arr) <= i.
Proof.
  unfold array_get. destruct (Z.ltb_spec i 0) as [Hneg | Hpos].
  - split; [by left | done].
  - rewrite lookup_ge_None. lia.
Qed.

(** X12.  [rebuildTargetFromOriginal] throws exactly when some [CopyRef]
    index is no position of the chunk table of the original, negative
    indices included; otherwise it returns a buffer. *)
Theorem rebuild_throws_iff (fuel : nat) (originalData : Buffer)
    (instructions : list Instruction) (C : Z) :
  0 < C -> (length originalData < fuel)%nat ->
  exists chunks,
    divideToChunks fuel originalData C = Some chunks /\
    (rebuildTargetFromOriginal fuel originalData instructions C = Some Thrown <->
     exists i, CopyRef i ∈ instructions /\
               (i < 0 \/ Z.of_nat (length chunks) <= i)) /\
    ((exists rebuilt,
         rebuildTargetFromOriginal fuel originalData instructions C =
           Some (Returned rebuilt)) <->
     forall i, CopyRef i ∈ instructions -> 0 <= i < Z.of_nat (length chunks)).
Proof.
  intros HC Ho. exists (chunks_of originalData C).
  split; [by apply divideToChunks_returns |].
  unfold rebuildTargetFromOriginal. rewrite divideToChunks_returns by done.
  assert (Buffer_concat (map (rebuilt_chunk (chunks_of originalData C)) instructions)
            = Thrown <->
          exists i, CopyRef i ∈ instructions /\
                    (i < 0 \/ Z.of_nat (length (chunks_of originalData C)) <= i))
    as Hthrow.
  { split.
    - intros H%Buffer_concat_Thrown_inv.
      apply list_elem_of_fmap in H as ([i | b] & Heq & Hin); [| done].
      exists i. split; [done |]. apply array_get_out_of_range. by simpl in Heq.
    - intros (i & Hin & Hi). apply Buffer_concat_Thrown.
      apply list_elem_of_fmap. exists (CopyRef i). split; [| done].
      simpl. symmetry. by apply array_get_out_of_range. }
  split.
  - rewrite <- Hthrow. split; [by intros [= ->] | by intros ->].
  - split.
    + intros [rebuilt [= Hret]] i Hin.
      destruct (Z_lt_le_dec i 0) as [Hneg | Hnn];
        [| destruct (Z_lt_le_dec i (Z.of_nat (length (chunks_of originalData C))))
             as [Hlt | Hge]; [lia |]];
        (assert (Buffer_concat
                   (map (rebuilt_chunk (chunks_of originalData C)) instructions)
                 = Thrown) as Hthr
           by (apply Hthrow; exists i; split; [done | lia]));
        congruence.
    + intros Hrange. destruct (Buffer_concat_in_range _ _ Hrange) as [rebuilt ->].
      by exists rebuilt.
Qed.

Lemma rebuild_throws_iff_witness :
  exists chunks,
    divideToChunks 11 (str "1234567890") 3 = Some chunks /\
    (rebuildTargetFromOriginal 11 (str "1234567890") [CopyRef (-1)] 3 = Some Thrown <->
     exists i, CopyRef i ∈ [CopyRef (-1)] /\
               (i < 0 \/ Z.of_nat (length chunks) <= i)) /\
    ((exists rebuilt,
         rebuildTargetFromOriginal 11 (str "1234567890") [CopyRef (-1)] 3 =
           Some (Returned rebuilt)) <->
     forall i, CopyRef i ∈ [CopyRef (-1)] -> 0 <= i < Z.of_nat (length chunks)).
Proof.
  apply (rebuild_throws_iff 11 (str "1234567890") [CopyRef (-1)] 3);
    [lia | simpl; lia].
Defined.

(** ** Chunker on a concatenation *)

Lemma subarray_app_l (a b : Buffer) (s e : Z) :
  0 <= s -> s <= e -> e <= blen a ->
  subarray (a ++ b) s e = subarray a s e.
Proof.
  intros Hs He Ha. rewrite !subarray_nonneg by lia. unfold blen in Ha.
  rewrite drop_app_le by lia.
  rewrite take_app_le; [done | rewrite length_drop; lia].
Qed.

Lemma subarray_app_r (a b : Buffer) (s e : Z) :
  0 <= s -> 0 <= e ->
  subarray (a ++ b) (blen a + s) (blen a + e) = subarray b s e.
Proof.
  intros Hs He. pose proof (blen_nonneg a).
  rewrite !subarray_nonneg by lia. unfold blen.
  rewrite drop_app_ge by lia. do 2 f_equal; lia.
Qed.

Lemma chunks_of_app (a b : Buffer) (c : Z) :
  0 < c -> blen a mod c = 0 ->
  chunks_of (a ++ b) c = chunks_of a c ++ chunks_of b c.
Proof.
  intros Hc Hmod.
  pose proof (blen_nonneg a) as Ha. pose proof (blen_nonneg b) as Hb.
  pose proof (Z.div_mod (blen a) c ltac:(lia)) as Hdm. rewrite Hmod in Hdm.
  assert (0 <= blen a / c) as Hq by (apply Z.div_pos; lia).
  assert (0 <= (blen b + c - 1) / c) as Hqb by (apply Z.div_pos; lia).
  assert (Z.of_nat (chunk_count a c) = blen a / c) as Hna.
  { rewrite chunk_count_ceil, Hmod by done. simpl. lia. }
  assert (chunk_count (a ++ b) c = (chunk_count a c + chunk_count b c)%nat) as Hn.
  { apply Nat2Z.inj. rewrite Nat2Z.inj_add, Hna. unfold chunk_count.
    rewrite !Z2Nat.id; [| done | apply Z.div_pos; pose proof (blen_nonneg (a ++ b)); lia].
    rewrite blen_app.
    replace (blen a + blen b + c - 1) with (blen a / c * c + (blen b + c - 1)) by lia.
    rewrite Z.div_add_l by lia. done. }
  unfold chunks_of. rewrite Hn, seq_app, map_app. f_equal.
  - apply map_ext_in. intros j Hj%in_seq. unfold chunk_at.
    apply subarray_app_l; nia.
  - cbn [Nat.add].
    replace (seq (chunk_count a c) (chunk_count b c))
      with (map (fun i => (chunk_count a c + i)%nat) (seq 0 (chunk_count b c)))
      by (pose proof (fmap_add_seq (chunk_count a c) 0 (chunk_count b c)) as E;
          rewrite Nat.add_0_r in E; exact E).
    rewrite map_map.
    apply map_ext. intros j. unfold chunk_at.
    replace (Z.of_nat (chunk_count a c + j) * c) with (blen a + Z.of_nat j * c) by lia.
    replace (blen a + Z.of_nat j * c + c) with (blen a + (Z.of_nat j * c + c)) by lia.
    apply subarray_app_r; nia.
Qed.

(** X13.  Splitting a concatenation whose first part is a whole number of
    chunks gives the chunks of the first part followed by those of the
    second. *)
Theorem divideToChunks_app (fuel : nat) (a b : Buffer) (C : Z) :
  0 < C -> blen a mod C = 0 -> (length (a ++ b) < fuel)%nat ->
  exists chunks_a chunks_b,
    divideToChunks fuel a C = Some chunks_a /\
    divideToChunks fuel b C = Some chunks_b /\
    divideToChunks fuel (a ++ b) C = Some (chunks_a ++ chunks_b).
Proof.
  intros HC Hmod Hfuel. rewrite length_app in Hfuel.
  exists (chunks_of a C), (chunks_of b C).
  rewrite !divideToChunks_returns by (rewrite ?length_app; lia).
  by rewrite chunks_of_app.
Qed.

Lemma divideToChunks_app_witness :
  exists chunks_a chunks_b,
    divideToChunks 11 (str "123456") 3 = Some chunks_a /\
    divideToChunks 11 (str "7890") 3 = Some chunks_b /\
    divideToChunks 11 (str "123456" ++ str "7890") 3 = Some (chunks_a ++ chunks_b).
Proof.
  apply (divideToChunks_app 11 (str "123456") (str "7890") 3);
    [lia | reflexivity | simpl; lia].
Defined.

(** ** Checksum index *)

(** X14.  The index that the operations build from the chunk table has a
    key for each weak checksum of a chunk and no other; the entry under a
    key holds the position and the strong checksum of the last chunk with
    this weak checksum (the last write wins). *)
Theorem checksumMap_last_write_wins (chunks : list Buffer) (w : Z) :
  (forEach_set chunks 0 ∅ !! w = None <->
   forall chunk, chunk ∈ chunks -> calculateWeakBlockChecksum chunk <> w) /\
  (forall e : ChecksumEntry,
      forEach_set chunks 0 ∅ !! w = Some e <->
      exists (j : nat) (chunk : Buffer),
        last_with_weak chunks w j chunk /\
        e = {| index := Z.of_nat j; strong := calculateStrongBlockChecksum chunk |}).
Proof.
  split.
  - split.
    + intros Hnone chunk Hin Hw.
      destruct (forEach_set_has chunks chunk Hin 0 ∅) as [e He].
      rewrite Hw in He. congruence.
    + intros Hall. rewrite forEach_set_absent by done. apply lookup_empty.
  - intros e. split.
    + intros (j & chunk & Hlast & ->)%checksumMap_lookup. by exists j, chunk.
    + intros (j & chunk & Hlast & ->).
      by rewrite (forEach_set_last chunks w j chunk 0 ∅ Hlast).
Qed.

(** ** The form of the checksums *)

Lemma hex_digit_is_hex (d : Z) : 0 <= d < 16 -> is_hex_char (SHA1.hex_digit d).
Proof.
  intros Hd. unfold is_hex_char, SHA1.hex_digit.
  assert (exists k : nat, (k < 16)%nat /\ Z.to_nat d = k) as (k & Hk & ->)
    by (exists (Z.to_nat d); lia).
  do 16 (destruct k as [| k]; [simpl; tauto |]). lia.
Qed.

Lemma hex_form (n : nat) (x : Z) :
  String.length (SHA1.hex n x) = n /\
  Forall is_hex_char (list_ascii_of_string (SHA1.hex n x)).
Proof.
  induction n as [| n [IHl IHf]]; [split; [done | constructor] |].
  cbn [SHA1.hex String.length list_ascii_of_string]. split; [by rewrite IHl |].
  constructor; [| done].
  apply hex_digit_is_hex, Z.mod_pos_bound. lia.
Qed.

(** X15.  The weak checksum of a buffer is a signed 32-bit number; its
    strong checksum is a string of 40 lowercase hexadecimal digits. *)
Theorem checksum_forms (buffer : Buffer) :
  - 2 ^ 31 <= calculateWeakBlockChecksum buffer < 2 ^ 31 /\
  String.length (calculateStrongBlockChecksum buffer) = 40%nat /\
  Forall is_hex_char (list_ascii_of_string (calculateStrongBlockChecksum buffer)).
Proof.
  split; [apply calculateWeakBlockChecksum_range |].
  unfold calculateStrongBlockChecksum, SHA1.hexdigest. apply hex_form.
Qed.

(** ** Where a literal sits, and what a chunk holds *)

(** X16.  A [Literal] of the output of [generateInstructions] holds the
    bytes of the target at the position that the instructions before it
    account for, and no position that it covers is a match. *)
Theorem literal_bytes_of_target (fuel : nat) (originalData targetData : Buffer)
    (C : Z) :
  0 < C ->
  (length originalData < fuel)%nat -> (length targetData < fuel)%nat ->
  exists chunks out,
    divideToChunks fuel originalData C = Some chunks /\
    generateInstructions fuel originalData targetData C = Some out /\
    forall (l1 l2 : list Instruction) (bytes : Buffer),
      out = l1 ++ Literal bytes :: l2 ->
      let p := C * copy_count l1 + literal_bytes l1 in
      0 <= p /\ p + blen bytes <= blen targetData /\
      bytes = subarray targetData p (p + blen bytes) /\
      forall q, p <= q < p + blen bytes -> q <= blen targetData - C ->
        ~ exists e,
            is_match (forEach_set chunks 0 ∅) (subarray targetData q (q + C)) e.
Proof.
  intros HC Ho Ht.
  destruct (generateInstructions_emits fuel originalData targetData C HC Ho Ht)
    as (out & Hout & Hemits).
  exists (chunks_of originalData C), out.
  split; [by apply divideToChunks_returns |]. split; [done |].
  intros l1 l2 bytes -> p.
  apply emits_suffix in Hemits. unfold covered in Hemits.
  change (0 + (C * copy_count l1 + literal_bytes l1)) with p in Hemits.
  inversion Hemits as [| | pos' k rest Hpos Hk Hfit Hno Hnl Hrest Hp Hb]; subst.
  rewrite blen_subarray by lia.
  replace (p + Z.max 0 (Z.min (p + k - p) (blen targetData - p))) with (p + k) by lia.
  split; [lia |]. split; [lia |]. split; [done |].
  intros q Hq Hfitq. specialize (Hno q Hq). unfold match_at in Hno.
  destruct (Z.leb_spec q (blen targetData - C)); [| lia].
  by apply probe_None.
Qed.

Lemma literal_bytes_of_target_witness :
  exists chunks out,
    divideToChunks 12 (str "1234567890") 3 = Some chunks /\
    generateInstructions 12 (str "1234567890") (str "12X34567890") 3 = Some out /\
    forall (l1 l2 : list Instruction) (bytes : Buffer),
      out = l1 ++ Literal bytes :: l2 ->
      let p := 3 * copy_count l1 + literal_bytes l1 in
      0 <= p /\ p + blen bytes <= blen (str "12X34567890") /\
      bytes = subarray (str "12X34567890") p (p + blen bytes) /\
      forall q, p <= q < p + blen bytes -> q <= blen (str "12X34567890") - 3 ->
        ~ exists e,
            is_match (forEach_set chunks 0 ∅) (subarray (str "12X34567890") q (q + 3)) e.
Proof.
  apply (literal_bytes_of_target 12 (str "1234567890") (str "12X34567890") 3);
    [lia | simpl; lia | simpl; lia].
Defined.

(** X17.  Chunk [j] of [divideToChunks] holds the [C] bytes of the buffer
    from position [j * C] on (fewer at the end of the buffer), and there is
    a chunk [j] exactly when position [j * C] is in the buffer. *)
Theorem divideToChunks_lookup (fuel : nat) (file : Buffer) (C : Z) :
  0 < C -> (length file < fuel)%nat ->
  exists chunks,
    divideToChunks fuel file C = Some chunks /\
    forall j : nat,
      chunks !! j =
        if Z.of_nat j * C <? blen file
        then Some (take (Z.to_nat C) (drop (j * Z.to_nat C) file))
        else None.
Proof.
  intros HC Hfuel. exists (chunks_of file C).
  split; [by apply divideToChunks_returns |]. intros j.
  destruct (Z.ltb_spec (Z.of_nat j * C) (blen file)) as [Hlt | Hge].
  - rewrite chunks_of_lookup by (by apply chunk_count_lt).
    unfold chunk_at. rewrite subarray_nonneg by nia. do 3 f_equal; nia.
  - apply lookup_ge_None. rewrite length_chunks_of.
    destruct (le_lt_dec (chunk_count file C) j) as [Hle | Hgt]; [done |].
    apply chunk_count_lt in Hgt; [lia | done].
Qed.

Lemma divideToChunks_lookup_witness :
  exists chunks,
    divideToChunks 11 (str "1234567890") 3 = Some chunks /\
    forall j : nat,
      chunks !! j =
        if Z.of_nat j * 3 <? blen (str "1234567890")
        then Some (take (Z.to_nat 3) (drop (j * Z.to_nat 3) (str "1234567890")))
        else None.
Proof.
  apply (divideToChunks_lookup 11 (str "1234567890") 3); [lia | simpl; lia].
Defined.
